(** * AdamW with gradient surgery (optimizer.py): a shallow embedding

    The optimizer of [optimizer.py] is embedded over the real numbers.
    Tensor elements are reals extended with one value for results that
    are not real numbers; Python floats of the hyperparameters are reals
    and the [math] functions raise as Python's do. *)

From Stdlib Require Import Reals Lra Lia List Bool Arith Sorted.
From stdpp Require Import base option list.
Import ListNotations.

Open Scope R_scope.

(** ** Tensor elements *)

(** An element of a tensor: a real number, or [NonFin] for a result that
    is no real number (IEEE infinity or NaN, as torch returns for a
    division by zero or the root of a negative number).  The embedding
    does not follow such values further: every operation on [NonFin]
    gives [NonFin]. *)
Inductive num : Type :=
  | Fin (r : R)
  | NonFin.

Definition nlift2 (f : R -> R -> R) (x y : num) : num :=
  match x, y with
  | Fin a, Fin b => Fin (f a b)
  | _, _ => NonFin
  end.

Definition nadd : num -> num -> num := nlift2 Rplus.
Definition nsub : num -> num -> num := nlift2 Rminus.
Definition nmul : num -> num -> num := nlift2 Rmult.

Definition ndiv (x y : num) : num :=
  match x, y with
  | Fin a, Fin b => if Req_dec_T b 0 then NonFin else Fin (a / b)
  | _, _ => NonFin
  end.

Definition nsqrt (x : num) : num :=
  match x with
  | Fin a => if Rlt_dec a 0 then NonFin else Fin (sqrt a)
  | NonFin => NonFin
  end.

(** [x > 0] on an element (false on [NonFin], as on NaN). *)
Definition gt0 (x : num) : bool :=
  match x with
  | Fin a => if Rlt_dec 0 a then true else false
  | NonFin => false
  end.

Definition is_fin (x : num) : Prop :=
  match x with Fin _ => True | NonFin => False end.

(** ** Tensors *)

(** A tensor: its shape, its elements in row-major order, and whether its
    layout is sparse ([t.is_sparse]).  The elements of a sparse tensor are
    kept like those of a dense one. *)
Record tensor : Type := Tensor {
  shape : list nat;
  data : list num;
  is_sparse : bool
}.

Definition with_data (t : tensor) (d : list num) : tensor :=
  {| shape := shape t; data := d; is_sparse := is_sparse t |}.

Definition flatten (t : tensor) : list num := data t.

Definition clone (t : tensor) : tensor := t.

(** [torch.dot]: the elementwise product, summed. *)
Definition dot (a b : list num) : num :=
  foldr nadd (Fin 0) (zip_with nmul a b).

(** [t.norm()]: the 2-norm of all the elements. *)
Definition norm (t : tensor) : num :=
  nsqrt (foldr nadd (Fin 0) (map (fun x => nmul x x) (data t))).

(** [x ** 2] on a Python float. *)
Definition sqr (x : num) : num := nmul x x.

(** [c * t] for a scalar [c]. *)
Definition smul (c : num) (t : tensor) : tensor :=
  with_data t (map (nmul c) (data t)).

(** [g_i -= u]: subtraction in place; [g_i] keeps its shape and layout. *)
Definition isub (g_i u : tensor) : tensor :=
  with_data g_i (zip_with nsub (data g_i) (data u)).

(** ** gradient_surgery *)

(** The body of the two loops, lines 35-39, at one pair [(i, j)] (the
    loops keep both indices in range), as far as line 37 returns: with a
    sparse operand it raises, see [surgery_pair_call]. *)
Definition surgery_pair (i j : nat) (grads : list (option tensor))
  : list (option tensor) :=
  match grads !! i, grads !! j with
  | Some (Some g_i), Some (Some g_j) =>
      if decide (shape g_i = shape g_j) then
        let g_dot := dot (flatten g_i) (flatten g_j) in
        if gt0 g_dot then
          <[ i := Some (isub g_i (smul (ndiv g_dot (sqr (norm g_j))) g_j)) ]> grads
        else grads
      else grads
  | _, _ => grads
  end.

(** [for j in range(i + 1, len(grads))]. *)
Definition surgery_row (i : nat) (grads : list (option tensor))
  : list (option tensor) :=
  foldl (fun gs j => surgery_pair i j gs) grads
        (seq (S i) (length grads - S i)).

(** [for i in range(len(grads))]: the list that a call which returns
    leaves ([gradient_surgery_call] is the call with its exception). *)
Definition gradient_surgery (grads : list (option tensor))
  : list (option tensor) :=
  foldl (fun gs i => surgery_row i gs) grads (seq 0 (length grads)).

(** ** Errors *)

Inductive error : Type :=
  | InvalidLearningRate   (* ValueError, line 18 *)
  | InvalidBeta0          (* ValueError, line 20 *)
  | InvalidBeta1          (* ValueError, line 22 *)
  | InvalidEpsilon        (* ValueError, line 24 *)
  | SparseGradient        (* RuntimeError on a sparse gradient: line 63, and
                             torch's own on line 37 *)
  | MathDomainError       (* ValueError of math.sqrt *)
  | ZeroDivisionError     (* float division by zero *)
  | ShapeMismatch         (* operands of different shapes *)
  | IndexError.           (* list index out of range *)

Inductive result (A : Type) : Type :=
  | Ok (a : A)
  | Raise (e : error).
Arguments Ok {A} a.
Arguments Raise {A} e.

Definition bind {A B : Type} (c : result A) (k : A -> result B) : result B :=
  match c with
  | Ok a => k a
  | Raise e => Raise e
  end.

Notation "'let*' x ':=' c 'in' k" := (bind c (fun x => k))
  (at level 10, x pattern, c at level 100, k at level 200).

(** ** gradient_surgery on sparse gradients

    [flatten] and [torch.dot] have no kernel for a tensor of sparse layout:
    on line 37 torch raises (a [RuntimeError]; in later versions its subclass
    [NotImplementedError]) as soon as one of the two gradients is sparse, and
    the exception leaves [gradient_surgery] and the [step()] that called it.
    [surgery_pair] is what the body of the loops computes when line 37
    returns. *)

(** Line 37 is reached at the pair [(i, j)] with a sparse operand. *)
Definition sparse_operand (i j : nat) (grads : list (option tensor)) : bool :=
  match grads !! i, grads !! j with
  | Some (Some g_i), Some (Some g_j) =>
      if decide (shape g_i = shape g_j) then is_sparse g_i || is_sparse g_j
      else false
  | _, _ => false
  end.

(** A [for] loop whose body may raise. *)
Fixpoint try_each {I A : Type} (body : I -> A -> result A) (l : list I)
    (a : A) : result A :=
  match l with
  | [] => Ok a
  | i :: l => let* a' := body i a in try_each body l a'
  end.

(** Lines 35-39 at one pair, with the exception of line 37. *)
Definition surgery_pair_call (i j : nat) (grads : list (option tensor))
  : result (list (option tensor)) :=
  if sparse_operand i j grads then Raise SparseGradient
  else Ok (surgery_pair i j grads).

Definition surgery_row_call (i : nat) (grads : list (option tensor))
  : result (list (option tensor)) :=
  try_each (surgery_pair_call i) (seq (S i) (length grads - S i)) grads.

(** A call of [gradient_surgery]: the list it leaves, or the exception. *)
Definition gradient_surgery_call (grads : list (option tensor))
  : result (list (option tensor)) :=
  try_each surgery_row_call (seq 0 (length grads)) grads.

(** ** Elementwise operators of the update

    An elementwise operator on two tensors is embedded on operands of one
    shape, which is what the update is meant to receive ([zeros_like] gives
    the moments the parameter's shape).  Where the shapes differ torch
    either broadcasts or raises; the embedding stops with [ShapeMismatch]. *)

Definition tzip (f : num -> num -> num) (a b : tensor) : result tensor :=
  if decide (shape a = shape b)
  then Ok (with_data a (zip_with f (data a) (data b)))
  else Raise ShapeMismatch.

Definition tmap (f : num -> num) (a : tensor) : tensor :=
  with_data a (map f (data a)).

Definition tadd : tensor -> tensor -> result tensor := tzip nadd.
Definition tsub : tensor -> tensor -> result tensor := tzip nsub.
Definition tdiv : tensor -> tensor -> result tensor := tzip ndiv.

Definition square : tensor -> tensor := tmap sqr.
Definition tsqrt : tensor -> tensor := tmap nsqrt.
Definition sadd (a : tensor) (c : R) : tensor := tmap (fun x => nadd x (Fin c)) a.
Definition zeros_like : tensor -> tensor := tmap (fun _ => Fin 0).

(** ** Python floats of the [math] module *)

Definition math_sqrt (x : R) : result R :=
  if Rlt_dec x 0 then Raise MathDomainError else Ok (sqrt x).

Definition float_div (x y : R) : result R :=
  if Req_dec_T y 0 then Raise ZeroDivisionError else Ok (x / y).

Definition math_pow (x : R) (n : nat) : R := x ^ n.

(** ** Optimizer data *)

(** [self.state[p]]: empty ([None]) until the first update of [p]. *)
Record pstate : Type := PState {
  st_m : tensor;
  st_v : tensor;
  st_t : nat
}.

(** A managed parameter: its value [p.data], its gradient [p.grad] and
    the optimizer state kept for it.  Parameters are distinct objects, so
    the state dictionary keyed by them is kept beside each. *)
Record param : Type := Param {
  p_data : tensor;
  p_grad : option tensor;
  p_state : option pstate
}.

Record group : Type := Group {
  params : list param;
  lr : R;
  betas : R * R;
  eps : R;
  weight_decay : R;
  correct_bias : bool
}.

Definition with_params (grp : group) (ps : list param) : group :=
  {| params := ps; lr := lr grp; betas := betas grp; eps := eps grp;
     weight_decay := weight_decay grp; correct_bias := correct_bias grp |}.

(** [self.param_groups]. *)
Definition optimizer : Type := list group.

(** ** __init__ *)

(** [0.0 <= b < 1.0] *)
Definition in_unit (b : R) : bool :=
  if Rle_dec 0 b then (if Rlt_dec b 1 then true else false) else false.

Definition fresh (p : param) : param :=
  {| p_data := p_data p; p_grad := p_grad p; p_state := None |}.

Definition AdamW_init (ps : list param) (lr : R) (betas : R * R) (eps : R)
    (weight_decay : R) (correct_bias : bool) : result optimizer :=
  if Rlt_dec lr 0 then Raise InvalidLearningRate
  else if negb (in_unit (fst betas)) then Raise InvalidBeta0
  else if negb (in_unit (snd betas)) then Raise InvalidBeta1
  else if negb (if Rle_dec 0 eps then true else false) then Raise InvalidEpsilon
  else
    (* super().__init__(params, defaults): one group holding [params],
       with an empty state dictionary *)
    Ok [ {| params := map fresh ps; lr := lr; betas := betas; eps := eps;
            weight_decay := weight_decay; correct_bias := correct_bias |} ].


(** ** step *)

(** A [for] loop over a list with its index, which an exception leaves:
    the elements visited so far keep what the body did to them. *)
Fixpoint for_each {A : Type} (body : nat -> A -> A * option error)
    (idx : nat) (l : list A) : list A * option error :=
  match l with
  | [] => ([], None)
  | x :: xs =>
      match body idx x with
      | (x', Some e) => (x' :: xs, Some e)
      | (x', None) =>
          let '(xs', r) := for_each body (S idx) xs in (x' :: xs', r)
      end
  end.

(** Lines 45-52: the snapshot, one entry per managed parameter. *)
Definition collect (opt : optimizer) : list (option tensor) :=
  flat_map (fun grp => map (fun p => clone <$> p_grad p) (params grp)) opt.

(** [[g for g in grads if g is not None]] *)
Definition present (grads : list (option tensor)) : list tensor :=
  omap (fun g => g) grads.

(** The list given to [gradient_surgery] holds the tensors of the snapshot
    themselves, and the surgery changes them in place: the entries of the
    snapshot that are present take, in order, what the surgery left. *)
Fixpoint scatter (grads : list (option tensor)) (out : list (option tensor))
  : list (option tensor) :=
  match grads with
  | [] => []
  | None :: gs => None :: scatter gs out
  | Some g :: gs =>
      match out with
      | o :: os => o :: scatter gs os
      | [] => Some g :: scatter gs []
      end
  end.

(** Lines 45-55: the snapshot after a surgery that returned. *)
Definition snapshot (opt : optimizer) : list (option tensor) :=
  let grads := collect opt in
  scatter grads (gradient_surgery (Some <$> present grads)).

(** Line 76. *)
Definition alpha_t (alpha beta1 beta2 : R) (t : nat) : result R :=
  let* s := math_sqrt (1 - math_pow beta2 t) in
  float_div (alpha * s) (1 - math_pow beta1 t).

(** Lines 64-79. *)
Definition adam_update (grp : group) (grad : tensor) (p : param)
  : param * option error :=
  let alpha := lr grp in
  let '(beta1, beta2) := betas grp in
  let eps := eps grp in
  let lam := weight_decay grp in
  let state :=
    match p_state p with
    | Some s => s
    | None => {| st_m := zeros_like (p_data p);
                 st_v := zeros_like (p_data p);
                 st_t := 0 |}
    end in
  let t := S (st_t state) in
  match
    (let* m := tadd (smul (Fin beta1) (st_m state)) (smul (Fin (1 - beta1)) grad) in
     let* v := tadd (smul (Fin beta2) (st_v state))
                    (smul (Fin (1 - beta2)) (square grad)) in
     let* a_t := alpha_t alpha beta1 beta2 t in
     let* u := tdiv (smul (Fin a_t) m) (sadd (tsqrt v) eps) in
     let* d := tsub (p_data p) u in
     Ok (m, v, d))
  with
  | Raise e =>
      ({| p_data := p_data p; p_grad := p_grad p; p_state := Some state |}, Some e)
  | Ok (m, v, d) =>
      match tsub d (smul (Fin (alpha * lam)) d) with
      | Raise e =>
          ({| p_data := d; p_grad := p_grad p; p_state := Some state |}, Some e)
      | Ok d' =>
          ({| p_data := d'; p_grad := p_grad p;
              p_state := Some {| st_m := m; st_v := v; st_t := t |} |}, None)
      end
  end.

(** Lines 59-79: the body of the inner loop at index [idx]. *)
Definition visit (grp : group) (grads : list (option tensor)) (idx : nat)
    (p : param) : param * option error :=
  match grads !! idx with
  | None => (p, Some IndexError)
  | Some None => (p, None)
  | Some (Some grad) =>
      if is_sparse grad then (p, Some SparseGradient)
      else adam_update grp grad p
  end.

(** Lines 57-79: [for idx, p in enumerate(group["params"])]. *)
Definition update_group (grads : list (option tensor)) (grp : group)
  : group * option error :=
  let '(ps, r) := for_each (visit grp grads) 0 (params grp) in
  (with_params grp ps, r).

(** Lines 57-79: the loops over the groups, on the snapshot [grads]. *)
Definition update_groups (grads : list (option tensor)) (opt : optimizer)
  : optimizer * option error :=
  for_each (fun _ grp => update_group grads grp) 0 opt.

(** [step()], as the training loop calls it (no closure): the optimizer
    after the call and the exception that ended it, if any.  An exception
    of the surgery (line 55) comes before the first update. *)
Definition step (opt : optimizer) : optimizer * option error :=
  let grads := collect opt in
  match gradient_surgery_call (Some <$> present grads) with
  | Raise e => (opt, Some e)
  | Ok out => update_groups (scatter grads out) opt
  end.

(** ** The conflict-resolution pass, as the specification words it *)

(** The pairs [(i, j)], [i < j < n], ascending in [i], then in [j]. *)
Definition pairs_from (n i : nat) : list (nat * nat) :=
  pair i <$> seq (S i) (n - S i).

Definition ordered_pairs (n : nat) : list (nat * nat) :=
  flat_map (pairs_from n) (seq 0 n).


Definition pair_step (grads : list (option tensor)) (ij : nat * nat)
  : list (option tensor) :=
  surgery_pair (fst ij) (snd ij) grads.

(** Some pair of the pass reaches line 37 with a sparse operand. *)
Definition sparse_conflict (grads : list (option tensor)) : bool :=
  existsb (fun ij => sparse_operand (fst ij) (snd ij) grads)
          (ordered_pairs (length grads)).

(** The surgery of a step raises. *)
Definition surgery_raises (opt : optimizer) : bool :=
  sparse_conflict (Some <$> present (collect opt)).

(** The squared norm: the sum of the squares of the elements. *)
Definition sum_squares (l : list num) : num :=
  foldr nadd (Fin 0) (map (fun x => nmul x x) l).

(** [g_i − (d / ‖g_j‖²) · g_j], element by element. *)
Definition project (d : num) (g_i g_j : tensor) : tensor :=
  with_data g_i
    (zip_with (fun x y => nsub x (nmul (ndiv d (sum_squares (data g_j))) y))
              (data g_i) (data g_j)).


Definition fin_tensor (t : tensor) : Prop := Forall is_fin (data t).

Definition fin_grads (grads : list (option tensor)) : Prop :=
  forall k g, grads !! k = Some (Some g) -> fin_tensor g.

(** What the pass keeps of an entry: presence, shape and layout. *)
Definition meta (g : option tensor) : option (list nat * bool) :=
  (fun t => (shape t, is_sparse t)) <$> g.

(** A dense vector of reals. *)
Definition vec (l : list R) : tensor :=
  {| shape := [length l]; data := map Fin l; is_sparse := false |}.

Definition rdot (a b : list R) : R := foldr Rplus 0 (zip_with Rmult a b).

Definition rproject (d : R) (a b : list R) : list R :=
  zip_with (fun x y => x - d / rdot b b * y) a b.

(** ** The update, as the specification words it *)

Definition state_of (p : param) : pstate :=
  match p_state p with
  | Some s => s
  | None => {| st_m := zeros_like (p_data p); st_v := zeros_like (p_data p);
               st_t := 0 |}
  end.

(** [m ← beta1·m + (1−beta1)·g] *)
Definition spec_m (beta1 : R) (m g : list num) : list num :=
  zip_with (fun m g => nadd (nmul (Fin beta1) m) (nmul (Fin (1 - beta1)) g)) m g.

(** [v ← beta2·v + (1−beta2)·g²] *)
Definition spec_v (beta2 : R) (v g : list num) : list num :=
  zip_with (fun v g => nadd (nmul (Fin beta2) v) (nmul (Fin (1 - beta2)) (nmul g g))) v g.

(** [alpha_t = lr · sqrt(1 − beta2^t) / (1 − beta1^t)] *)
Definition spec_alpha_t (lr beta1 beta2 : R) (t : nat) : R :=
  lr * sqrt (1 - beta2 ^ t) / (1 - beta1 ^ t).

(** [p ← p − alpha_t · m / (sqrt(v) + eps)] *)
Definition spec_p (a eps : R) (p m v : list num) : list num :=
  zip_with nsub p
    (zip_with (fun m v => ndiv (nmul (Fin a) m) (nadd (nsqrt v) (Fin eps))) m v).

(** [p ← p − lr · weight_decay · p] *)
Definition spec_decay (lr lam : R) (p : list num) : list num :=
  map (fun x => nsub x (nmul (Fin (lr * lam)) x)) p.

Definition spec_update (grp : group) (g : tensor) (p : param) : param :=
  let s := state_of p in
  let t := S (st_t s) in
  let m := spec_m (fst (betas grp)) (data (st_m s)) (data g) in
  let v := spec_v (snd (betas grp)) (data (st_v s)) (data g) in
  let a := spec_alpha_t (lr grp) (fst (betas grp)) (snd (betas grp)) t in
  let p1 := spec_p a (eps grp) (data (p_data p)) m v in
  {| p_data := with_data (p_data p) (spec_decay (lr grp) (weight_decay grp) p1);
     p_grad := p_grad p;
     p_state := Some {| st_m := with_data (st_m s) m;
                        st_v := with_data (st_v s) v;
                        st_t := t |} |}.

(** What a visit that does not raise makes of a parameter. *)
Definition visited (grp : group) (grads : list (option tensor)) (i : nat)
    (p : param) : param :=
  match grads !! i with
  | Some (Some g) => spec_update grp g p
  | _ => p
  end.

(** The position in the snapshot of the first parameter of group [k]. *)
Definition offset (opt : optimizer) (k : nat) : nat :=
  length (collect (take k opt)).

(** ** Well-formed parameters and groups *)

(** The gradient and the moments of a parameter have its shape. *)
Definition wf_param (p : param) : Prop :=
  match p_grad p with
  | Some g => shape g = shape (p_data p)
  | None => True
  end
  /\ match p_state p with
     | Some s => shape (st_m s) = shape (p_data p)
                 /\ shape (st_v s) = shape (p_data p)
     | None => True
     end.

(** The betas of a group pass the checks of the constructor. *)
Definition valid_betas (grp : group) : Prop :=
  in_unit (fst (betas grp)) = true /\ in_unit (snd (betas grp)) = true.

Definition set_weight_decay (w : R) (grp : group) : group :=
  {| params := params grp; lr := lr grp; betas := betas grp; eps := eps grp;
     weight_decay := w; correct_bias := correct_bias grp |}.

(** The step counter kept for a parameter ([0] before its first update). *)
Definition t_of (p : param) : nat := st_t (state_of p).

(** ** Training rounds *)

(** The backward pass of the training loop, which leaves gradient
    [gs !! k] (or none) on the [k]-th managed parameter. *)
Definition set_grad (g : option tensor) (p : param) : param :=
  {| p_data := p_data p; p_grad := g; p_state := p_state p |}.

Fixpoint attach (gs : list (option tensor)) (opt : optimizer) : optimizer :=
  match opt with
  | [] => []
  | grp :: rest =>
      with_params grp
        (imap (fun k p => set_grad (default None (gs !! k)) p) (params grp))
      :: attach (drop (length (params grp)) gs) rest
  end.

(** Rounds of backward pass and [step()], until a step raises. *)
Fixpoint train (rounds : list (list (option tensor))) (opt : optimizer)
  : optimizer * option error :=
  match rounds with
  | [] => (opt, None)
  | gs :: rest =>
      match step (attach gs opt) with
      | (opt', None) => train rest opt'
      | (opt', Some e) => (opt', Some e)
      end
  end.

(** [n] calls of [step()] on the gradients as they are, until one raises. *)
Fixpoint steps (n : nat) (opt : optimizer) : optimizer * option error :=
  match n with
  | O => (opt, None)
  | S n =>
      match step opt with
      | (opt', None) => steps n opt'
      | (opt', Some e) => (opt', Some e)
      end
  end.

(** ** Examples *)

(** The gradients of the example of the specification. *)
Definition g0 : tensor := vec [1; 0].
Definition g1 : tensor := vec [1; 1].
Definition g2 : tensor := vec [0; 1].

(** [g0] after the projection against [g1] and then against [g2]. *)
Definition g0_projected_twice : tensor :=
  let g0' := project (dot (data g0) (data g1)) g0 g1 in
  project (dot (data g0') (data g2)) g0' g2.

(** Hyperparameters of the examples: [lr = 1], [betas = (0, 0)], no
    weight decay. *)
Definition ex_group (ps : list param) (eps : R) : group :=
  {| params := ps; lr := 1; betas := (0, 0); eps := eps; weight_decay := 0;
     correct_bias := true |}.

(** Two groups of one parameter each, with gradients [[1]] and [[-1]]. *)
Definition p_first : param :=
  {| p_data := vec [0]; p_grad := Some (vec [1]); p_state := None |}.
Definition p_second : param :=
  {| p_data := vec [0]; p_grad := Some (vec [-1]); p_state := None |}.
Definition two_groups : optimizer :=
  [ex_group [p_first] 1; ex_group [p_second] 1].

(** The all-zero list of the length of [l]. *)
Definition zeros (l : list num) : list num := map (fun _ => Fin 0) l.

(** The dense all-zero gradient of the shape of [t]. *)
Definition zero_grad (t : tensor) : tensor :=
  {| shape := shape t; data := zeros (data t); is_sparse := false |}.

(** A parameter with an all-zero gradient and no state. *)
Definition zero_grad_param (t : tensor) : param :=
  {| p_data := t; p_grad := Some (zero_grad t); p_state := None |}.

(** The parameter of [zero_grad_param] after [n] steps that left its value. *)
Definition zero_grad_after (t : tensor) (n : nat) : param :=
  {| p_data := t; p_grad := Some (zero_grad t);
     p_state := match n with
                | O => None
                | S _ => Some {| st_m := zeros_like t; st_v := zeros_like t;
                                 st_t := n |}
                end |}.


(** A parameter without gradient, and a parameter with a sparse gradient. *)
Definition p_none : param :=
  {| p_data := vec [0]; p_grad := None; p_state := None |}.
Definition sparse_one : tensor :=
  {| shape := [1%nat]; data := [Fin 1]; is_sparse := true |}.
Definition p_sparse : param :=
  {| p_data := vec [0]; p_grad := Some sparse_one; p_state := None |}.

(** A parameter of two elements with a dense gradient. *)
Definition p_wide : param :=
  {| p_data := vec [0; 0]; p_grad := Some (vec [1; 1]); p_state := None |}.

(** One group holding [p_first], and what a step leaves of it. *)
Definition one_group : group := ex_group [p_first] 1.
Definition one_group_after : group :=
  with_params one_group
    (imap (visited one_group (snapshot [one_group])) (params one_group)).

(** The same group with weight decay [1/2], and what a step leaves of it. *)
Definition decay_group : group := set_weight_decay (1/2) one_group.
Definition decay_group_after : group :=
  with_params decay_group
    (imap (visited decay_group (snapshot [decay_group])) (params decay_group)).

(** * Further definitions *)

(** The number of elements of a tensor of a given shape. *)
Definition numel (s : list nat) : nat := foldr Nat.mul 1%nat s.

(** A tensor holds as many elements as its shape says. *)
Definition wf_tensor (t : tensor) : Prop := length (data t) = numel (shape t).

(** Gradients of reals, each with the elements of its shape. *)
Definition real_grads (grads : list (option tensor)) : Prop :=
  forall k g, grads !! k = Some (Some g) -> fin_tensor g /\ wf_tensor g.

(** [a − c·b], element by element. *)
Definition axpy (c : R) (a b : list R) : list R :=
  zip_with (fun x y => x - c * y) a b.

(** Every gradient of [gs] is, in [gs'], a gradient of reals whose squared
    norm is not larger. *)
Definition norms_le (gs' gs : list (option tensor)) : Prop :=
  forall k g, gs !! k = Some (Some g) ->
    exists g' s s',
      gs' !! k = Some (Some g')
      /\ sum_squares (data g) = Fin s
      /\ sum_squares (data g') = Fin s'
      /\ s' <= s.


(** What one visit keeps of a parameter in the embedding, where the
    operands of the update have one shape or the visit stops (see [tzip]):
    its gradient and the shape and layout of its value. *)
Definition param_kept (p p' : param) : Prop :=
  p_grad p' = p_grad p
  /\ shape (p_data p') = shape (p_data p)
  /\ is_sparse (p_data p') = is_sparse (p_data p).

(** The counter of a parameter stays or grows by one, and a state is
    never dropped. *)
Definition counter_step (p p' : param) : Prop :=
  (t_of p' = t_of p \/ t_of p' = S (t_of p))
  /\ (is_Some (p_state p) -> is_Some (p_state p')).

(** A group with the same hyperparameters, whose parameters are related
    one by one. *)
Definition group_rel (R : param -> param -> Prop) (grp grp' : group) : Prop :=
  lr grp' = lr grp /\ betas grp' = betas grp /\ eps grp' = eps grp
  /\ weight_decay grp' = weight_decay grp
  /\ correct_bias grp' = correct_bias grp
  /\ Forall2 R (params grp) (params grp').

(** [c·l], element by element. *)
Definition scaled (c : R) (l : list num) : list num :=
  map (fun x => nmul x (Fin c)) l.

(** A parameter of the shape of [t] that holds [c·t], has an all-zero
    gradient and has been updated [n] times with zero moments. *)
Definition decayed (t : tensor) (c : R) (n : nat) (p : param) : Prop :=
  shape (p_data p) = shape t
  /\ is_sparse (p_data p) = is_sparse t
  /\ data (p_data p) = scaled c (data t)
  /\ p_grad p = Some (zero_grad t)
  /\ p_state p = match n with
                 | O => None
                 | S _ => Some {| st_m := zeros_like t; st_v := zeros_like t;
                                  st_t := n |}
                 end.

(** ** train_multitask: the running loss of the epoch

    [multitask_classifier.py], lines 213-276, as far as [train_loss] and
    [num_batches] go.  The value [loss.item()] of every batch is given, in
    the order of the loader. *)

Record running : Type := Running {
  train_loss : R;
  num_batches : nat
}.

(** Lines 234-235 and 255-256: [train_loss += loss.item()],
    [num_batches += 1]. *)
Definition add_loss (st : running) (loss : R) : running :=
  {| train_loss := train_loss st + loss; num_batches := S (num_batches st) |}.

(** Lines 273-276, the end of the body of the SST loop: after the two
    additions, [train_loss = train_loss / (num_batches)]. *)
Definition add_loss_sst (st : running) (loss : R) : result running :=
  let st := add_loss st loss in
  let* tl := float_div (train_loss st) (INR (num_batches st)) in
  Ok {| train_loss := tl; num_batches := num_batches st |}.

Fixpoint sst_loop (losses : list R) (st : running) : result running :=
  match losses with
  | [] => Ok st
  | loss :: rest => let* st' := add_loss_sst st loss in sst_loop rest st'
  end.

(** The three loops of the epoch, over the losses of the STS, the
    paraphrase and the SST batches. *)
Definition epoch_loss (sts para sst : list R) : result running :=
  sst_loop sst
    (foldl add_loss (foldl add_loss {| train_loss := 0; num_batches := 0 |} sts)
           para).

Definition total (l : list R) : R := foldr Rplus 0 l.

(** ** train_multitask: the calls of the optimizer

    [multitask_classifier.py], line 206 and lines 227-232, 249-254 and
    266-271: the optimizer is constructed over the parameters of the model,
    and every batch leaves gradients and calls [step()]. *)

(** The gradients of a batch fit the parameters: each one that is present
    is dense and has the shape of the value of its parameter. *)
Definition fits (ps : list param) (gs : list (option tensor)) : Prop :=
  forall k p g, ps !! k = Some p -> gs !! k = Some (Some g) ->
    shape g = shape (p_data p) /\ is_sparse g = false.

(** The moments of a parameter, if it has any, have the shape of its value. *)
Definition wf_state (q : param) : Prop :=
  match p_state q with
  | Some s => shape (st_m s) = shape (p_data q)
              /\ shape (st_v s) = shape (p_data q)
  | None => True
  end.

(** What [n] batches have made of parameter [p]: a parameter of the same
    shape, with moments of this shape, updated at most [n] times. *)
Definition trained (n : nat) (p q : param) : Prop :=
  shape (p_data q) = shape (p_data p) /\ wf_state q /\ (t_of q <= n)%nat.

(** What a step makes of a well-formed parameter. *)
Definition kept_wf (p q : param) : Prop :=
  wf_param p ->
  wf_param q /\ shape (p_data q) = shape (p_data p) /\ (t_of q <= S (t_of p))%nat.

(** No gradient is left on parameter [k] by the batch: the parameter does
    not require one ([multitask_classifier.py], lines 70-72), or it took no
    part in the loss. *)
Definition no_grad (k : nat) (gs : list (option tensor)) : Prop :=
  default None (gs !! k) = None.

(** * Properties *)

(** ** Elements *)

Arguments ndiv : simpl never.
Arguments nsqrt : simpl never.
Arguments gt0 : simpl never.

Lemma gt0_true (x : num) : gt0 x = true <-> exists r, x = Fin r /\ 0 < r.
Proof.
  destruct x as [r|]; unfold gt0.
  - destruct (Rlt_dec 0 r); split; intros H; eauto.
    + discriminate.
    + destruct H as (r' & [= <-] & H). contradiction.
  - split; [discriminate|]. intros (r & H & _). discriminate.
Qed.

Lemma gt0_Fin_true (r : R) : 0 < r -> gt0 (Fin r) = true.
Proof. intros H. apply gt0_true. eauto. Qed.

Lemma gt0_Fin_false (r : R) : r <= 0 -> gt0 (Fin r) = false.
Proof. intros H. unfold gt0. destruct (Rlt_dec 0 r); [lra|reflexivity]. Qed.

Lemma ndiv_Fin (a b : R) : b <> 0 -> ndiv (Fin a) (Fin b) = Fin (a / b).
Proof. intros H. unfold ndiv. destruct (Req_dec_T b 0); [contradiction|reflexivity]. Qed.

Lemma ndiv_zero (a : R) : ndiv (Fin a) (Fin 0) = NonFin.
Proof. unfold ndiv. destruct (Req_dec_T 0 0); [reflexivity|contradiction]. Qed.

Lemma nsqrt_Fin (a : R) : 0 <= a -> nsqrt (Fin a) = Fin (sqrt a).
Proof. intros H. unfold nsqrt. destruct (Rlt_dec a 0); [lra|reflexivity]. Qed.

(** ** Sums of squares *)

Lemma sum_squares_nonneg (l : list num) (s : R) :
  sum_squares l = Fin s -> 0 <= s.
Proof.
  revert s. induction l as [|x l IH]; intros s; unfold sum_squares; simpl.
  - intros [= <-]. lra.
  - fold (sum_squares l). destruct x as [a|]; [|discriminate].
    destruct (sum_squares l) as [s'|]; [|discriminate].
    simpl. intros [= <-]. specialize (IH s' eq_refl). nra.
Qed.

Lemma sqr_norm (g : tensor) : sqr (norm g) = sum_squares (data g).
Proof.
  unfold norm. fold (sum_squares (data g)).
  destruct (sum_squares (data g)) as [s|] eqn:E; [|reflexivity].
  pose proof (sum_squares_nonneg _ _ E) as Hs.
  rewrite nsqrt_Fin by exact Hs. unfold sqr. simpl.
  f_equal. apply sqrt_sqrt. exact Hs.
Qed.

Lemma sum_squares_fin (l : list num) :
  Forall is_fin l -> exists s, sum_squares l = Fin s.
Proof.
  induction 1 as [|x l Hx _ [s IH]]; unfold sum_squares; simpl.
  - eauto.
  - fold (sum_squares l). rewrite IH. destruct x as [a|]; [|destruct Hx].
    simpl. eauto.
Qed.

(** A positive dot product needs a non-zero second operand. *)
Lemma dot_pos_sum_squares (a b : list num) (d s : R) :
  dot a b = Fin d -> 0 < d -> sum_squares b = Fin s -> 0 < s.
Proof.
  revert b d s. induction a as [|x a IH]; intros b d s.
  - unfold dot. simpl. intros [= <-]. lra.
  - destruct b as [|y b].
    + unfold dot. simpl. intros [= <-]. lra.
    + unfold dot, sum_squares. simpl.
      fold (dot a b). fold (sum_squares b).
      destruct x as [x|]; [|discriminate].
      destruct y as [y|]; [|discriminate].
      destruct (dot a b) as [d'|] eqn:Ed; [|discriminate].
      destruct (sum_squares b) as [s'|] eqn:Es; [|discriminate].
      simpl. intros [= <-] Hd [= <-].
      pose proof (sum_squares_nonneg _ _ Es) as Hs'.
      destruct (Rlt_dec 0 d') as [Hd'|Hd'].
      * specialize (IH b d' s' Ed Hd' Es). nra.
      * destruct (Req_dec_T y 0) as [->|Hy]; [lra|].
        assert (0 < y * y) by nra. lra.
Qed.



(** ** The order of the pairs *)

Lemma surgery_pair_length (i j : nat) (grads : list (option tensor)) :
  length (surgery_pair i j grads) = length grads.
Proof.
  unfold surgery_pair.
  repeat case_match; try reflexivity. apply length_insert.
Qed.

Lemma pair_steps_length (l : list (nat * nat)) (grads : list (option tensor)) :
  length (foldl pair_step grads l) = length grads.
Proof.
  revert grads. induction l as [|ij l IH]; intros grads; simpl.
  - reflexivity.
  - rewrite IH. apply surgery_pair_length.
Qed.

Lemma surgery_row_pairs (i : nat) (grads : list (option tensor)) :
  surgery_row i grads = foldl pair_step grads (pairs_from (length grads) i).
Proof.
  unfold surgery_row, pairs_from.
  rewrite foldl_fmap. reflexivity.
Qed.

Lemma surgery_rows_pairs (n : nat) (rows : list nat) (grads : list (option tensor)) :
  length grads = n ->
  foldl (fun gs i => surgery_row i gs) grads rows
  = foldl pair_step grads (flat_map (pairs_from n) rows).
Proof.
  revert grads. induction rows as [|i rows IH]; intros grads Hn; simpl.
  - reflexivity.
  - rewrite foldl_app, surgery_row_pairs, Hn. apply IH.
    rewrite pair_steps_length. exact Hn.
Qed.

Lemma gradient_surgery_pairs (grads : list (option tensor)) :
  gradient_surgery grads
  = foldl pair_step grads (ordered_pairs (length grads)).
Proof. apply surgery_rows_pairs. reflexivity. Qed.

Lemma gradient_surgery_length (grads : list (option tensor)) :
  length (gradient_surgery grads) = length grads.
Proof. rewrite gradient_surgery_pairs. apply pair_steps_length. Qed.

Lemma elem_of_pairs_from (n i : nat) (ij : nat * nat) :
  ij ∈ pairs_from n i <-> fst ij = i /\ (i < snd ij < n)%nat.
Proof.
  unfold pairs_from. rewrite list_elem_of_fmap. split.
  - intros (j & -> & Hj%elem_of_seq). simpl. split; [reflexivity|lia].
  - destruct ij as [i' j]. simpl. intros [-> Hj]. exists j.
    split; [reflexivity|]. apply elem_of_seq. lia.
Qed.

Lemma elem_of_ordered_pairs (n i j : nat) :
  (i, j) ∈ ordered_pairs n <-> (i < j < n)%nat.
Proof.
  unfold ordered_pairs. rewrite list_elem_of_In, in_flat_map. split.
  - intros (i' & Hi'%list_elem_of_In%elem_of_seq & Hij%list_elem_of_In).
    apply elem_of_pairs_from in Hij. simpl in Hij. lia.
  - intros Hij. exists i. split.
    + apply list_elem_of_In, elem_of_seq. lia.
    + apply list_elem_of_In, elem_of_pairs_from. simpl. lia.
Qed.





(** ** One pair *)

Lemma zip_with_map_r {A B C D : Type} (f : A -> B -> C) (g : D -> B)
    (l : list A) (k : list D) :
  zip_with f l (map g k) = zip_with (fun x y => f x (g y)) l k.
Proof.
  revert k. induction l as [|x l IH]; intros [|y k]; simpl; try reflexivity.
  f_equal. apply IH.
Qed.

Lemma isub_smul_project (d : num) (g_i g_j : tensor) :
  isub g_i (smul (ndiv d (sqr (norm g_j))) g_j) = project d g_i g_j.
Proof.
  unfold isub, smul, project, with_data. simpl.
  rewrite zip_with_map_r, sqr_norm. reflexivity.
Qed.

Lemma surgery_pair_frame (i j k : nat) (grads : list (option tensor)) :
  k <> i -> surgery_pair i j grads !! k = grads !! k.
Proof.
  intros Hk. unfold surgery_pair.
  repeat case_match; try reflexivity.
  apply list_lookup_insert_ne. congruence.
Qed.

Lemma surgery_pair_target (i j : nat) (grads : list (option tensor))
    (g_i g_j : tensor) :
  grads !! i = Some (Some g_i) -> grads !! j = Some (Some g_j) ->
  surgery_pair i j grads !! i
  = Some (Some (if decide (shape g_i = shape g_j)
                then if gt0 (dot (data g_i) (data g_j))
                     then project (dot (data g_i) (data g_j)) g_i g_j
                     else g_i
                else g_i)).
Proof.
  intros Hi Hj. unfold surgery_pair. rewrite Hi, Hj.
  destruct (decide (shape g_i = shape g_j)); [|exact Hi].
  unfold flatten. destruct (gt0 (dot (data g_i) (data g_j))); [|exact Hi].
  rewrite isub_smul_project. apply list_lookup_insert_eq.
  apply lookup_lt_Some in Hi. exact Hi.
Qed.

Lemma surgery_pair_absent (i j : nat) (grads : list (option tensor)) :
  grads !! i = Some None \/ grads !! j = Some None ->
  surgery_pair i j grads = grads.
Proof.
  intros H. unfold surgery_pair.
  destruct (grads !! i) as [[g_i|]|]; try reflexivity.
  destruct (grads !! j) as [[g_j|]|]; try reflexivity.
  destruct H; discriminate.
Qed.

Lemma surgery_pair_meta (i j : nat) (grads : list (option tensor)) :
  meta <$> surgery_pair i j grads = meta <$> grads.
Proof.
  unfold surgery_pair.
  destruct (grads !! i) as [[g_i|]|] eqn:Hi; try reflexivity.
  destruct (grads !! j) as [[g_j|]|]; try reflexivity.
  repeat case_match; try reflexivity.
  rewrite list_fmap_insert. apply list_insert_id.
  rewrite list_lookup_fmap, Hi. reflexivity.
Qed.

Lemma pair_steps_meta (l : list (nat * nat)) (grads : list (option tensor)) :
  meta <$> foldl pair_step grads l = meta <$> grads.
Proof.
  revert grads. induction l as [|ij l IH]; intros grads; simpl.
  - reflexivity.
  - rewrite IH. apply surgery_pair_meta.
Qed.

Lemma gradient_surgery_meta (grads : list (option tensor)) :
  meta <$> gradient_surgery grads = meta <$> grads.
Proof. rewrite gradient_surgery_pairs. apply pair_steps_meta. Qed.


(** ** Finite gradients *)

Lemma dot_vec (a b : list R) : dot (map Fin a) (map Fin b) = Fin (rdot a b).
Proof.
  revert b. induction a as [|x a IH]; intros [|y b]; try reflexivity.
  unfold dot, rdot in *. simpl. rewrite IH. reflexivity.
Qed.

Lemma sum_squares_vec (b : list R) : sum_squares (map Fin b) = Fin (rdot b b).
Proof.
  induction b as [|y b IH]; [reflexivity|].
  unfold sum_squares, rdot in *. simpl. rewrite IH. reflexivity.
Qed.

Lemma rdot_pos (a b : list R) : 0 < rdot a b -> 0 < rdot b b.
Proof.
  intros H.
  eapply dot_pos_sum_squares; [apply dot_vec|exact H|apply sum_squares_vec].
Qed.

Lemma project_vec (d : R) (a b : list R) :
  length a = length b -> rdot b b <> 0 ->
  project (Fin d) (vec a) (vec b) = vec (rproject d a b).
Proof.
  intros Hl Hs.
  unfold project, vec, with_data, rproject. cbn [data shape is_sparse].
  rewrite sum_squares_vec, ndiv_Fin by exact Hs. f_equal.
  - f_equal. rewrite length_zip_with. lia.
  - generalize (d / rdot b b) as c. intros c. clear Hs.
    revert b Hl. induction a as [|x a IH]; intros [|y b] Hl; simpl in *;
      try reflexivity; try discriminate.
    f_equal. apply IH. lia.
Qed.

Lemma surgery_pair_vec (i j : nat) (gs : list (option tensor)) (a b : list R) :
  gs !! i = Some (Some (vec a)) -> gs !! j = Some (Some (vec b)) ->
  length a = length b ->
  surgery_pair i j gs
  = if Rlt_dec 0 (rdot a b)
    then <[ i := Some (vec (rproject (rdot a b) a b)) ]> gs
    else gs.
Proof.
  intros Hi Hj Hl. unfold surgery_pair. rewrite Hi, Hj.
  rewrite decide_True by (simpl; congruence).
  unfold flatten. cbn [vec data]. rewrite dot_vec.
  destruct (Rlt_dec 0 (rdot a b)) as [Hd|Hd].
  - rewrite gt0_Fin_true by exact Hd.
    rewrite isub_smul_project. fold (vec a). fold (vec b).
    pose proof (rdot_pos _ _ Hd).
    rewrite project_vec by (assumption || lra). reflexivity.
  - rewrite gt0_Fin_false by lra. reflexivity.
Qed.

Lemma project_fin (d s : R) (g_i g_j : tensor) :
  fin_tensor g_i -> fin_tensor g_j ->
  sum_squares (data g_j) = Fin s -> s <> 0 ->
  fin_tensor (project (Fin d) g_i g_j).
Proof.
  unfold fin_tensor, project, with_data. cbn [data].
  intros Hi Hj -> Hs. rewrite ndiv_Fin by exact Hs.
  revert Hj. generalize (data g_j) as b.
  induction Hi as [|x a Hx Ha IH]; intros b Hb; [constructor|].
  destruct Hb as [|y b Hy Hb]; [constructor|]. simpl.
  constructor; [|apply IH, Hb].
  destruct x, y; simpl in *; tauto.
Qed.

Lemma surgery_pair_fin (i j : nat) (grads : list (option tensor)) :
  fin_grads grads -> fin_grads (surgery_pair i j grads).
Proof.
  intros Hfin k g Hk.
  destruct (decide (k = i)) as [->|Hne];
    [|rewrite surgery_pair_frame in Hk by exact Hne; exact (Hfin _ _ Hk)].
  destruct (grads !! i) as [[g_i|]|] eqn:Hi.
  - destruct (grads !! j) as [[g_j|]|] eqn:Hj.
    + rewrite (surgery_pair_target _ _ _ _ _ Hi Hj) in Hk.
      injection Hk as <-.
      destruct (decide (shape g_i = shape g_j)); [|exact (Hfin _ _ Hi)].
      destruct (gt0 (dot (data g_i) (data g_j))) eqn:Hgt; [|exact (Hfin _ _ Hi)].
      destruct (proj1 (gt0_true _) Hgt) as (d & Hd & Hpos). rewrite Hd.
      destruct (sum_squares_fin _ (Hfin _ _ Hj)) as [s Hs].
      pose proof (dot_pos_sum_squares _ _ _ _ Hd Hpos Hs).
      apply (project_fin d s); [exact (Hfin _ _ Hi)|exact (Hfin _ _ Hj)|exact Hs|lra].
    + rewrite surgery_pair_absent in Hk by (right; exact Hj). exact (Hfin _ _ Hk).
    + unfold surgery_pair in Hk. rewrite Hi, Hj in Hk. exact (Hfin _ _ Hk).
  - rewrite surgery_pair_absent in Hk by (left; exact Hi). exact (Hfin _ _ Hk).
  - unfold surgery_pair in Hk. rewrite Hi in Hk. exact (Hfin _ _ Hk).
Qed.





(** ** The update of one parameter *)

Lemma tzip_Ok (f : num -> num -> num) (a b c : tensor) :
  tzip f a b = Ok c -> shape a = shape b /\ c = with_data a (zip_with f (data a) (data b)).
Proof.
  unfold tzip. destruct (decide (shape a = shape b)); [|discriminate].
  intros [= <-]. split; [assumption|reflexivity].
Qed.

Lemma tzip_same (f : num -> num -> num) (a b : tensor) :
  shape a = shape b -> tzip f a b = Ok (with_data a (zip_with f (data a) (data b))).
Proof. intros H. unfold tzip. rewrite decide_True by exact H. reflexivity. Qed.

Lemma alpha_t_Ok (alpha beta1 beta2 a : R) (t : nat) :
  alpha_t alpha beta1 beta2 t = Ok a ->
  a = spec_alpha_t alpha beta1 beta2 t
  /\ 0 <= 1 - beta2 ^ t /\ 1 - beta1 ^ t <> 0.
Proof.
  unfold alpha_t, math_sqrt, float_div, math_pow, spec_alpha_t.
  destruct (Rlt_dec (1 - beta2 ^ t) 0); [discriminate|]. simpl.
  destruct (Req_dec_T (1 - beta1 ^ t) 0); [discriminate|].
  intros [= <-]. repeat split; [lra|assumption].
Qed.

Lemma zip_with_map_l {A B C D : Type} (f : A -> B -> C) (g : D -> A)
    (l : list D) (k : list B) :
  zip_with f (map g l) k = zip_with (fun x y => f (g x) y) l k.
Proof.
  revert k. induction l as [|x l IH]; intros [|y k]; simpl; try reflexivity.
  f_equal. apply IH.
Qed.

Lemma map_zip_with_same {A B : Type} (f : A -> A -> B) (l : list A) :
  zip_with f l l = map (fun x => f x x) l.
Proof. induction l as [|x l IH]; simpl; [reflexivity|f_equal; exact IH]. Qed.

Lemma adam_update_Ok (grp : group) (g : tensor) (p p' : param) :
  adam_update grp g p = (p', None) ->
  p' = spec_update grp g p
  /\ alpha_t (lr grp) (fst (betas grp)) (snd (betas grp)) (S (st_t (state_of p)))
     = Ok (spec_alpha_t (lr grp) (fst (betas grp)) (snd (betas grp)) (S (st_t (state_of p)))).
Proof.
  unfold adam_update, spec_update. fold (state_of p).
  destruct (betas grp) as [beta1 beta2]. cbn [fst snd].
  destruct (tadd _ _) as [m|] eqn:Em; [|discriminate]. cbn [bind].
  destruct (tadd _ (smul _ (square g))) as [v|] eqn:Ev; [|discriminate]. cbn [bind].
  destruct (alpha_t _ _ _ _) as [a|] eqn:Ea; [|discriminate]. cbn [bind].
  destruct (tdiv _ _) as [u|] eqn:Eu; [|discriminate]. cbn [bind].
  destruct (tsub _ _) as [d|] eqn:Ed; [|discriminate]. cbn [bind].
  destruct (tsub d _) as [d'|] eqn:Ed'; [|discriminate].
  intros [= <-].
  apply tzip_Ok in Em as [_ ->], Ev as [_ ->], Eu as [_ ->], Ed as [_ ->], Ed' as [_ ->].
  apply alpha_t_Ok in Ea as (-> & Hs & Hz).
  split.
  - unfold spec_m, spec_v, spec_p, spec_decay, with_data, smul, square, sadd, tsqrt, tmap, with_data.
    cbn [data shape is_sparse].
    rewrite ?zip_with_map_l, ?zip_with_map_r, map_zip_with_same.
    reflexivity.
  - reflexivity.
Qed.

(** ** Loops *)

Lemma for_each_length {A : Type} (body : nat -> A -> A * option error)
    (idx : nat) (l : list A) :
  length (fst (for_each body idx l)) = length l.
Proof.
  revert idx. induction l as [|x l IH]; intros idx; simpl; [reflexivity|].
  destruct (body idx x) as [x' [e|]]; simpl; [reflexivity|].
  specialize (IH (S idx)). destruct (for_each body (S idx) l). simpl in *.
  f_equal. exact IH.
Qed.

(** A loop that ends normally has run its body on every element. *)
Lemma for_each_normal {A : Type} (body : nat -> A -> A * option error)
    (idx : nat) (l l' : list A) :
  for_each body idx l = (l', None) ->
  forall i x, l !! i = Some x ->
    body (idx + i)%nat x = (fst (body (idx + i)%nat x), None)
    /\ l' !! i = Some (fst (body (idx + i)%nat x)).
Proof.
  revert idx l'. induction l as [|y l IH]; intros idx l' H i x Hi; [discriminate|].
  simpl in H. destruct (body idx y) as [y' [e|]] eqn:Hy; [discriminate|].
  destruct (for_each body (S idx) l) as [l'' r] eqn:Hl.
  injection H as <- ->.
  destruct i as [|i]; simpl in Hi.
  - injection Hi as <-. rewrite Nat.add_0_r, Hy. split; reflexivity.
  - replace (idx + S i)%nat with (S idx + i)%nat by lia.
    exact (IH _ _ Hl i x Hi).
Qed.

(** A loop left by an exception: the body ran normally before some index
    [k], raised at [k], and the elements after [k] were not reached. *)
Lemma for_each_raised {A : Type} (body : nat -> A -> A * option error)
    (idx : nat) (l l' : list A) (e : error) :
  for_each body idx l = (l', Some e) ->
  exists k y,
    l !! k = Some y
    /\ body (idx + k)%nat y = (fst (body (idx + k)%nat y), Some e)
    /\ l' !! k = Some (fst (body (idx + k)%nat y))
    /\ (forall i x, (i < k)%nat -> l !! i = Some x ->
          body (idx + i)%nat x = (fst (body (idx + i)%nat x), None)
          /\ l' !! i = Some (fst (body (idx + i)%nat x)))
    /\ (forall i, (k < i)%nat -> l' !! i = l !! i).
Proof.
  revert idx l'. induction l as [|y l IH]; intros idx l' H; [discriminate|].
  simpl in H. destruct (body idx y) as [y' [e'|]] eqn:Hy.
  - injection H as <- ->. exists 0%nat, y. rewrite Nat.add_0_r, Hy.
    split; [reflexivity|]. split; [reflexivity|]. split; [reflexivity|].
    split; [intros i x Hi; lia|].
    intros [|i] Hi; [lia|reflexivity].
  - destruct (for_each body (S idx) l) as [l'' r] eqn:Hl.
    injection H as <- ->.
    destruct (IH _ _ Hl) as (k & z & Hk & Hb & Hk' & Hlt & Hgt).
    exists (S k), z. replace (idx + S k)%nat with (S idx + k)%nat by lia.
    split; [exact Hk|]. split; [exact Hb|]. split; [exact Hk'|]. split.
    + intros [|i] x Hi Hx; simpl in Hx.
      * injection Hx as <-. rewrite Nat.add_0_r, Hy. split; reflexivity.
      * replace (idx + S i)%nat with (S idx + i)%nat by lia.
        apply (Hlt i x); [lia|assumption].
    + intros [|i] Hi; [lia|]. simpl. apply Hgt. lia.
Qed.

(** Each element after the loop is the one before or what the body made of it. *)
Lemma for_each_lookup {A : Type} (body : nat -> A -> A * option error)
    (idx : nat) (l : list A) (i : nat) (x x' : A) :
  l !! i = Some x -> fst (for_each body idx l) !! i = Some x' ->
  x' = x \/ x' = fst (body (idx + i)%nat x).
Proof.
  revert idx i. induction l as [|y l IH]; intros idx i Hi Hi'; [discriminate|].
  simpl in Hi'. destruct (body idx y) as [y' [e|]] eqn:Hy; simpl in Hi'.
  - destruct i as [|i]; simpl in *; simplify_eq.
    + right. rewrite Nat.add_0_r, Hy. reflexivity.
    + left. reflexivity.
  - destruct (for_each body (S idx) l) as [l'' r] eqn:Hl. simpl in Hi'.
    destruct i as [|i]; simpl in *; simplify_eq.
    + right. rewrite Nat.add_0_r, Hy. reflexivity.
    + replace (idx + S i)%nat with (S idx + i)%nat by lia.
      apply IH; [assumption|]. rewrite Hl. exact Hi'.
Qed.

(** A body that ends normally everywhere gives a loop that ends normally. *)
Lemma for_each_all_normal {A : Type} (body : nat -> A -> A * option error)
    (idx : nat) (l : list A) :
  (forall i x, l !! i = Some x -> snd (body (idx + i)%nat x) = None) ->
  snd (for_each body idx l) = None.
Proof.
  revert idx. induction l as [|y l IH]; intros idx H; [reflexivity|].
  simpl. pose proof (H 0%nat y eq_refl) as Hy. rewrite Nat.add_0_r in Hy.
  destruct (body idx y) as [y' r]. simpl in Hy. subst r.
  specialize (IH (S idx)). destruct (for_each body (S idx) l) as [l' r]. simpl in *.
  apply IH. intros i x Hi.
  replace (S (idx + i))%nat with (idx + S i)%nat by lia. apply (H (S i)). exact Hi.
Qed.

(** ** The snapshot *)

Lemma present_cons_Some (g : tensor) (grads : list (option tensor)) :
  present (Some g :: grads) = g :: present grads.
Proof. reflexivity. Qed.

Lemma present_cons_None (grads : list (option tensor)) :
  present (None :: grads) = present grads.
Proof. reflexivity. Qed.

Lemma scatter_meta (grads out : list (option tensor)) :
  meta <$> out = meta <$> (Some <$> present grads) ->
  meta <$> scatter grads out = meta <$> grads.
Proof.
  revert out. induction grads as [|[g|] grads IH]; intros out H.
  - reflexivity.
  - rewrite present_cons_Some, !fmap_cons in H.
    destruct out as [|o out]; [discriminate|].
    rewrite fmap_cons in H. injection H as Ho H.
    cbn [scatter]. rewrite !fmap_cons, Ho.
    f_equal. apply IH. exact H.
  - rewrite present_cons_None in H. cbn [scatter].
    rewrite !fmap_cons. f_equal. apply IH. exact H.
Qed.

Lemma snapshot_meta (opt : optimizer) :
  meta <$> snapshot opt = meta <$> collect opt.
Proof. unfold snapshot. apply scatter_meta, gradient_surgery_meta. Qed.

Lemma snapshot_length (opt : optimizer) :
  length (snapshot opt) = length (collect opt).
Proof.
  rewrite <- (length_fmap meta (snapshot opt)), snapshot_meta.
  apply length_fmap.
Qed.

Lemma snapshot_lookup_meta (opt : optimizer) (i : nat) :
  meta <$> snapshot opt !! i = meta <$> collect opt !! i.
Proof. rewrite <- !list_lookup_fmap, snapshot_meta. reflexivity. Qed.

Lemma collect_single (grp : group) :
  collect [grp] = map (fun p => clone <$> p_grad p) (params grp).
Proof. unfold collect. simpl. apply app_nil_r. Qed.

Lemma collect_single_lookup (grp : group) (i : nat) (p : param) :
  params grp !! i = Some p -> collect [grp] !! i = Some (p_grad p).
Proof.
  intros Hp. rewrite collect_single.
  change (map ?f ?l) with (f <$> l).
  rewrite list_lookup_fmap, Hp. simpl. unfold clone.
  destruct (p_grad p); reflexivity.
Qed.

(** With one group, entry [i] of the snapshot is what the surgery made of
    the gradient of parameter [i]: absent, or a tensor of the shape and
    layout of that gradient. *)
Lemma snapshot_single_absent (grp : group) (i : nat) (p : param) :
  params grp !! i = Some p -> p_grad p = None ->
  snapshot [grp] !! i = Some None.
Proof.
  intros Hp Hg. pose proof (snapshot_lookup_meta [grp] i) as H.
  rewrite (collect_single_lookup _ _ _ Hp), Hg in H. simpl in H.
  destruct (snapshot [grp] !! i) as [[g|]|]; simpl in H; try discriminate.
  reflexivity.
Qed.

Lemma snapshot_single_present (grp : group) (i : nat) (p : param) (g : tensor) :
  params grp !! i = Some p -> p_grad p = Some g ->
  exists g', snapshot [grp] !! i = Some (Some g')
             /\ shape g' = shape g /\ is_sparse g' = is_sparse g.
Proof.
  intros Hp Hg. pose proof (snapshot_lookup_meta [grp] i) as H.
  rewrite (collect_single_lookup _ _ _ Hp), Hg in H. simpl in H.
  destruct (snapshot [grp] !! i) as [[g'|]|]; simpl in H; try discriminate.
  injection H as Hs Hl. eauto.
Qed.

(** ** One visit of the loop *)

Lemma alpha_t_valid (alpha beta1 beta2 : R) (t : nat) :
  in_unit beta1 = true -> in_unit beta2 = true ->
  alpha_t alpha beta1 beta2 (S t) = Ok (spec_alpha_t alpha beta1 beta2 (S t)).
Proof.
  unfold in_unit. intros H1 H2.
  destruct (Rle_dec 0 beta1) as [H1l|]; [|discriminate].
  destruct (Rlt_dec beta1 1) as [H1u|]; [|discriminate].
  destruct (Rle_dec 0 beta2) as [H2l|]; [|discriminate].
  destruct (Rlt_dec beta2 1) as [H2u|]; [|discriminate].
  assert (Hpow : forall b, 0 <= b -> b < 1 -> 0 <= b ^ t <= 1).
  { intros b Hb0 Hb1. split; [apply pow_le; exact Hb0|].
    rewrite <- (pow1 t). apply pow_incr. lra. }
  assert (Hlt : forall b, 0 <= b -> b < 1 -> b ^ S t < 1).
  { intros b Hb0 Hb1. simpl. specialize (Hpow b Hb0 Hb1). nra. }
  unfold alpha_t, math_sqrt, float_div, math_pow, spec_alpha_t.
  pose proof (Hlt beta1 H1l H1u). pose proof (Hlt beta2 H2l H2u).
  destruct (Rlt_dec (1 - beta2 ^ S t) 0); [lra|]. cbn [bind].
  destruct (Req_dec_T (1 - beta1 ^ S t) 0); [lra|]. reflexivity.
Qed.

Lemma state_of_shape (p : param) :
  wf_param p ->
  shape (st_m (state_of p)) = shape (p_data p)
  /\ shape (st_v (state_of p)) = shape (p_data p).
Proof.
  intros [_ H]. unfold state_of. destruct (p_state p); [exact H|].
  split; reflexivity.
Qed.

Ltac shape_eq :=
  unfold smul, square, sadd, tsqrt, tmap, with_data; simpl; congruence.

(** The update of a well-formed parameter under betas in [[0, 1)] ends
    normally. *)
Lemma adam_update_total (grp : group) (g : tensor) (p : param) :
  valid_betas grp -> wf_param p -> shape g = shape (p_data p) ->
  adam_update grp g p = (spec_update grp g p, None).
Proof.
  intros [Hb1 Hb2] Hwf Hg.
  destruct (state_of_shape p Hwf) as [Hm Hv].
  destruct (adam_update grp g p) as [p' r] eqn:E.
  assert (r = None) as ->; [|apply adam_update_Ok in E as [-> _]; reflexivity].
  revert E. unfold adam_update. fold (state_of p).
  destruct (betas grp) as [beta1 beta2]. cbn [fst snd] in *.
  unfold tadd, tsub, tdiv.
  rewrite !tzip_same by shape_eq.
  cbn [bind]. rewrite alpha_t_valid by assumption. cbn [bind].
  rewrite !tzip_same by shape_eq. cbn [bind].
  rewrite !tzip_same by shape_eq. cbn [bind].
  rewrite ?tzip_same by shape_eq.
  intros [= _ <-]. reflexivity.
Qed.

(** An exception of the update is a shape disagreement or an exception of
    the computation of [alpha_t]. *)
Lemma adam_update_raised (grp : group) (g : tensor) (p p' : param) (e : error) :
  adam_update grp g p = (p', Some e) ->
  e = ShapeMismatch
  \/ alpha_t (lr grp) (fst (betas grp)) (snd (betas grp)) (S (st_t (state_of p)))
     = Raise e.
Proof.
  unfold adam_update. fold (state_of p).
  destruct (betas grp) as [beta1 beta2]. cbn [fst snd].
  assert (Hz : forall f a b e', tzip f a b = Raise e' -> e' = ShapeMismatch).
  { intros f a b e'. unfold tzip. destruct (decide _); [discriminate|congruence]. }
  destruct (tadd _ _) as [m|e1] eqn:Em; cbn [bind];
    [|intros [= _ <-]; left; exact (Hz _ _ _ _ Em)].
  destruct (tadd _ (smul _ (square g))) as [v|e2] eqn:Ev; cbn [bind];
    [|intros [= _ <-]; left; exact (Hz _ _ _ _ Ev)].
  destruct (alpha_t _ _ _ _) as [a|e3] eqn:Ea; cbn [bind];
    [|intros [= _ <-]; right; reflexivity].
  destruct (tdiv _ _) as [u|e4] eqn:Eu; cbn [bind];
    [|intros [= _ <-]; left; exact (Hz _ _ _ _ Eu)].
  destruct (tsub _ _) as [d|e5] eqn:Ed; cbn [bind];
    [|intros [= _ <-]; left; exact (Hz _ _ _ _ Ed)].
  destruct (tsub d _) as [d'|e6] eqn:Ed'; [discriminate|].
  intros [= _ <-]. left. exact (Hz _ _ _ _ Ed').
Qed.

(** ** The surgery on sparse operands *)

Lemma sparse_operand_meta (i j : nat) (gs gs' : list (option tensor)) :
  meta <$> gs = meta <$> gs' -> sparse_operand i j gs = sparse_operand i j gs'.
Proof.
  intros H.
  assert (Hl : forall k, meta <$> gs !! k = meta <$> gs' !! k).
  { intros k. rewrite <- !list_lookup_fmap, H. reflexivity. }
  pose proof (Hl i) as Hi. pose proof (Hl j) as Hj. unfold sparse_operand.
  destruct (gs !! i) as [[a|]|], (gs' !! i) as [[a'|]|];
    simpl in Hi; try discriminate; try reflexivity.
  destruct (gs !! j) as [[b|]|], (gs' !! j) as [[b'|]|];
    simpl in Hj; try discriminate; try reflexivity.
  injection Hi as Hsa Hla. injection Hj as Hsb Hlb.
  rewrite Hsa, Hla, Hsb, Hlb. reflexivity.
Qed.

Lemma try_each_app {I A : Type} (body : I -> A -> result A) (l k : list I) (a : A) :
  try_each body (l ++ k) a = let* a' := try_each body l a in try_each body k a'.
Proof.
  revert a. induction l as [|i l IH]; intros a; cbn [try_each app bind].
  - reflexivity.
  - destruct (body i a) as [a'|e]; cbn [bind]; [apply IH|reflexivity].
Qed.

Lemma try_each_fmap {I J A : Type} (f : I -> J) (body : J -> A -> result A)
    (l : list I) (a : A) :
  try_each body (f <$> l) a = try_each (fun i => body (f i)) l a.
Proof.
  revert a. induction l as [|i l IH]; intros a; [reflexivity|].
  rewrite fmap_cons. cbn [try_each].
  destruct (body (f i) a) as [a'|e]; cbn [bind]; [apply IH|reflexivity].
Qed.

(** The pairs of a list, one after the other: the first sparse operand
    raises, and without one the pairs do what [pair_step] says. *)
Lemma try_pairs_spec (l : list (nat * nat)) (gs : list (option tensor)) :
  try_each (fun ij => surgery_pair_call (fst ij) (snd ij)) l gs
  = if existsb (fun ij => sparse_operand (fst ij) (snd ij) gs) l
    then Raise SparseGradient
    else Ok (foldl pair_step gs l).
Proof.
  revert gs. induction l as [|ij l IH]; intros gs; [reflexivity|].
  cbn [try_each existsb foldl]. unfold surgery_pair_call at 1.
  destruct (sparse_operand (fst ij) (snd ij) gs); cbn [bind orb]; [reflexivity|].
  rewrite IH. unfold pair_step at 2.
  assert (Hex : forall k : list (nat * nat),
            existsb (fun ij' => sparse_operand (fst ij') (snd ij')
                                  (surgery_pair (fst ij) (snd ij) gs)) k
            = existsb (fun ij' => sparse_operand (fst ij') (snd ij') gs) k).
  { induction k as [|ij' k IHk]; [reflexivity|]. cbn [existsb].
    rewrite IHk. f_equal. apply sparse_operand_meta, surgery_pair_meta. }
  rewrite Hex. reflexivity.
Qed.

Lemma surgery_row_call_pairs (i : nat) (gs : list (option tensor)) :
  surgery_row_call i gs
  = try_each (fun ij => surgery_pair_call (fst ij) (snd ij))
             (pairs_from (length gs) i) gs.
Proof. unfold surgery_row_call, pairs_from. rewrite try_each_fmap. reflexivity. Qed.

Lemma surgery_rows_call_pairs (n : nat) (rows : list nat) (gs : list (option tensor)) :
  length gs = n ->
  try_each surgery_row_call rows gs
  = try_each (fun ij => surgery_pair_call (fst ij) (snd ij))
             (flat_map (pairs_from n) rows) gs.
Proof.
  revert gs. induction rows as [|i rows IH]; intros gs Hn; [reflexivity|].
  cbn [try_each flat_map]. rewrite try_each_app, surgery_row_call_pairs, Hn.
  rewrite try_pairs_spec.
  destruct (existsb _ (pairs_from n i)); cbn [bind]; [reflexivity|].
  apply IH. rewrite pair_steps_length. exact Hn.
Qed.

Lemma gradient_surgery_call_spec (gs : list (option tensor)) :
  gradient_surgery_call gs
  = if sparse_conflict gs then Raise SparseGradient else Ok (gradient_surgery gs).
Proof.
  unfold gradient_surgery_call.
  rewrite (surgery_rows_call_pairs (length gs)) by reflexivity.
  change (flat_map (pairs_from (length gs)) (seq 0 (length gs)))
    with (ordered_pairs (length gs)).
  rewrite try_pairs_spec, gradient_surgery_pairs. reflexivity.
Qed.

Lemma sparse_conflict_false (gs : list (option tensor)) :
  sparse_conflict gs = false
  <-> forall i j, (i < j)%nat -> sparse_operand i j gs = false.
Proof.
  unfold sparse_conflict. split.
  - intros H i j Hij.
    destruct (decide (j < length gs)%nat) as [Hj|Hj].
    + destruct (sparse_operand i j gs) eqn:E; [|reflexivity].
      assert (Hex : existsb (fun ij => sparse_operand (fst ij) (snd ij) gs)
                      (ordered_pairs (length gs)) = true); [|congruence].
      apply existsb_exists. exists (i, j). split; [|exact E].
      apply list_elem_of_In, elem_of_ordered_pairs. lia.
    + unfold sparse_operand. rewrite (lookup_ge_None_2 gs j) by lia.
      destruct (gs !! i) as [[g|]|]; reflexivity.
  - intros H.
    destruct (existsb _ _) eqn:E; [|reflexivity].
    apply existsb_exists in E as ([i j] & Hin%list_elem_of_In & E).
    apply elem_of_ordered_pairs in Hin. cbn [fst snd] in E.
    rewrite H in E by lia. discriminate.
Qed.

Lemma sparse_conflict_true (gs : list (option tensor)) :
  sparse_conflict gs = true
  <-> exists i j, (i < j)%nat /\ sparse_operand i j gs = true.
Proof.
  split.
  - unfold sparse_conflict.
    intros ([i j] & Hin%list_elem_of_In%elem_of_ordered_pairs & E)%existsb_exists.
    exists i, j. split; [lia|exact E].
  - intros (i & j & Hij & E).
    destruct (sparse_conflict gs) eqn:Hc; [reflexivity|].
    rewrite (proj1 (sparse_conflict_false gs) Hc i j Hij) in E. discriminate.
Qed.

(** Dense gradients never raise in the surgery. *)
Lemma sparse_conflict_dense (gs : list tensor) :
  Forall (fun g => is_sparse g = false) gs ->
  sparse_conflict (Some <$> gs) = false.
Proof.
  intros Hd. apply sparse_conflict_false. intros i j _. unfold sparse_operand.
  rewrite !list_lookup_fmap.
  destruct (gs !! i) as [g_i|] eqn:Hi; [|reflexivity].
  destruct (gs !! j) as [g_j|] eqn:Hj; [|reflexivity]. cbn [fmap option_fmap option_map].
  rewrite Forall_lookup in Hd.
  rewrite (Hd _ _ Hi), (Hd _ _ Hj). destruct (decide _); reflexivity.
Qed.

(** ** The two ends of a step *)

Lemma with_params_id (grp : group) : with_params grp (params grp) = grp.
Proof. destruct grp. reflexivity. Qed.

Lemma step_surgery_raises (opt : optimizer) :
  surgery_raises opt = true -> step opt = (opt, Some SparseGradient).
Proof.
  unfold surgery_raises, step. intros H.
  rewrite gradient_surgery_call_spec, H. reflexivity.
Qed.

Lemma step_surgery_returns (opt : optimizer) :
  surgery_raises opt = false -> step opt = update_groups (snapshot opt) opt.
Proof.
  unfold surgery_raises, step. intros H.
  rewrite gradient_surgery_call_spec, H. reflexivity.
Qed.

Lemma step_cases (opt : optimizer) :
  (surgery_raises opt = true /\ step opt = (opt, Some SparseGradient))
  \/ (surgery_raises opt = false /\ step opt = update_groups (snapshot opt) opt).
Proof.
  destruct (surgery_raises opt) eqn:H.
  - left. split; [reflexivity|apply step_surgery_raises, H].
  - right. split; [reflexivity|apply step_surgery_returns, H].
Qed.

Lemma elem_of_collect (opt : optimizer) (x : option tensor) :
  x ∈ collect opt ->
  exists grp p, grp ∈ opt /\ p ∈ params grp /\ x = p_grad p.
Proof.
  unfold collect. intros Hx. apply list_elem_of_In, in_flat_map in Hx.
  destruct Hx as (grp & Hgrp%list_elem_of_In & Hx%list_elem_of_In).
  change (map ?f ?l) with (f <$> l) in Hx.
  apply list_elem_of_fmap in Hx as (p & -> & Hp).
  exists grp, p. split; [exact Hgrp|]. split; [exact Hp|].
  unfold clone. destruct (p_grad p); reflexivity.
Qed.

(** With dense gradients only, the surgery returns. *)
Lemma surgery_dense (opt : optimizer) :
  (forall grp p g, grp ∈ opt -> p ∈ params grp -> p_grad p = Some g ->
     is_sparse g = false) ->
  surgery_raises opt = false.
Proof.
  intros Hd. apply sparse_conflict_dense, Forall_forall. intros g Hg.
  unfold present in Hg. apply list_elem_of_omap in Hg as (x & Hx & ->).
  destruct (elem_of_collect _ _ Hx) as (grp & p & Hgrp & Hp & Hxp).
  apply (Hd grp p g Hgrp Hp). symmetry. exact Hxp.
Qed.

Lemma surgery_dense_single (grp : group) :
  (forall p g, p ∈ params grp -> p_grad p = Some g -> is_sparse g = false) ->
  surgery_raises [grp] = false.
Proof.
  intros Hd. apply surgery_dense.
  intros grp' p g ->%list_elem_of_singleton. apply Hd.
Qed.

Lemma step_normal_loops (opt opt' : optimizer) :
  step opt = (opt', None) -> update_groups (snapshot opt) opt = (opt', None).
Proof.
  destruct (step_cases opt) as [[_ ->]|[_ ->]]; [discriminate|auto].
Qed.

(** ** A step of an optimizer with one group *)

Lemma update_groups_single (grads : list (option tensor)) (grp : group) :
  update_groups grads [grp]
  = ([with_params grp (fst (for_each (visit grp grads) 0 (params grp)))],
     snd (for_each (visit grp grads) 0 (params grp))).
Proof.
  unfold update_groups, for_each at 1, update_group.
  destruct (for_each (visit grp grads) 0 (params grp)) as [ps [e|]];
    reflexivity.
Qed.

(** A step whose surgery returns is the loop over the parameters. *)
Lemma step_single (grp : group) :
  surgery_raises [grp] = false ->
  step [grp]
  = ([with_params grp (fst (for_each (visit grp (snapshot [grp])) 0 (params grp)))],
     snd (for_each (visit grp (snapshot [grp])) 0 (params grp))).
Proof.
  intros H. rewrite (step_surgery_returns _ H). apply update_groups_single.
Qed.

(** A step whose surgery raises leaves every parameter as it is. *)
Lemma step_single_raises (grp : group) :
  surgery_raises [grp] = true ->
  step [grp] = ([with_params grp (params grp)], Some SparseGradient).
Proof.
  intros H. rewrite (step_surgery_raises _ H), with_params_id. reflexivity.
Qed.

Lemma step_normal_returns (opt opt' : optimizer) :
  step opt = (opt', None) -> surgery_raises opt = false.
Proof.
  destruct (step_cases opt) as [[_ ->]|[H _]]; [discriminate|auto].
Qed.

(** ** Steps of an optimizer with one group *)

Lemma visit_absent (grp : group) (grads : list (option tensor)) (i : nat) (p : param) :
  grads !! i = Some None -> visit grp grads i p = (p, None).
Proof. intros H. unfold visit. rewrite H. reflexivity. Qed.

Lemma visit_normal (grp : group) (grads : list (option tensor)) (i : nat)
    (p p' : param) (g : tensor) :
  grads !! i = Some (Some g) -> visit grp grads i p = (p', None) ->
  is_sparse g = false /\ p' = spec_update grp g p.
Proof.
  intros H. unfold visit. rewrite H.
  destruct (is_sparse g); [discriminate|].
  intros [-> _]%adam_update_Ok. split; reflexivity.
Qed.

(** A step with one group that returns has updated every parameter whose
    entry of the snapshot is a gradient. *)
Lemma step_normal_lookup (grp grp' : group) (i : nat) (p : param) (g : tensor) :
  params grp !! i = Some p ->
  snapshot [grp] !! i = Some (Some g) ->
  step [grp] = ([grp'], None) ->
  params grp' !! i = Some (spec_update grp g p).
Proof.
  intros Hp Hg Hstep.
  rewrite (step_single _ (step_normal_returns _ _ Hstep)) in Hstep.
  injection Hstep as <- Hr.
  destruct (for_each (visit grp (snapshot [grp])) 0 (params grp)) as [ps r] eqn:E.
  simpl in Hr. subst r. simpl.
  destruct (for_each_normal _ _ _ _ E i p Hp) as [Hv Hi].
  apply (visit_normal _ _ _ _ _ _ Hg) in Hv as [_ Hv].
  rewrite Hi, Hv. reflexivity.
Qed.


(** A step leaves a parameter without gradient as it is. *)
Lemma step_absent_untouched (grp : group) (i : nat) (p : param) :
  params grp !! i = Some p -> p_grad p = None ->
  exists ps, fst (step [grp]) = [with_params grp ps] /\ ps !! i = Some p.
Proof.
  intros Hp Hg. destruct (surgery_raises [grp]) eqn:Hraise.
  { rewrite (step_single_raises _ Hraise). exists (params grp).
    split; [reflexivity|exact Hp]. }
  rewrite (step_single _ Hraise). eexists. split; [reflexivity|].
  pose proof (snapshot_single_absent _ _ _ Hp Hg) as Hs.
  destruct (lookup_lt_is_Some_2 (fst (for_each (visit grp (snapshot [grp])) 0 (params grp))) i)
    as [p' Hp'].
  { rewrite for_each_length. apply lookup_lt_Some in Hp. exact Hp. }
  rewrite Hp'. f_equal.
  destruct (for_each_lookup _ _ _ _ _ _ Hp Hp') as [->| ->]; [reflexivity|].
  simpl. rewrite (visit_absent _ _ _ _ Hs). reflexivity.
Qed.

Lemma step_single_normal (grp : group) (opt' : optimizer) :
  step [grp] = (opt', None) ->
  exists ps, opt' = [with_params grp ps]
             /\ for_each (visit grp (snapshot [grp])) 0 (params grp) = (ps, None).
Proof.
  intros Hstep. rewrite (step_single _ (step_normal_returns _ _ Hstep)) in Hstep.
  revert Hstep.
  destruct (for_each (visit grp (snapshot [grp])) 0 (params grp)) as [ps r].
  simpl. intros [= <- ->]. eauto.
Qed.

Lemma attach_single (gs : list (option tensor)) (grp : group) :
  attach gs [grp]
  = [with_params grp
       (imap (fun k p => set_grad (default None (gs !! k)) p) (params grp))].
Proof. reflexivity. Qed.




(** ** Weight decay *)

Lemma spec_decay_scale (lr w : R) (l : list num) :
  spec_decay lr w l = map (fun x => nmul x (Fin (1 - lr * w))) l.
Proof.
  unfold spec_decay. apply map_ext. intros [x|]; simpl; [|reflexivity].
  f_equal. ring.
Qed.

Lemma spec_decay_0 (lr : R) (l : list num) : spec_decay lr 0 l = l.
Proof.
  unfold spec_decay. rewrite <- (map_id l) at 2. apply map_ext.
  intros [x|]; simpl; [|reflexivity]. f_equal. ring.
Qed.

Lemma snapshot_set_weight_decay (w : R) (grp : group) :
  snapshot [set_weight_decay w grp] = snapshot [grp].
Proof. reflexivity. Qed.

(** Whether the update raises does not depend on the weight decay. *)
Lemma adam_update_weight_decay (w : R) (grp : group) (g : tensor) (p : param) :
  snd (adam_update (set_weight_decay w grp) g p) = snd (adam_update grp g p).
Proof.
  unfold adam_update. cbn [set_weight_decay lr betas eps weight_decay].
  destruct (betas grp) as [beta1 beta2].
  match goal with
  | |- context [match ?c with Ok _ => _ | Raise _ => _ end] =>
      destruct c as [[[m v] d]|e]
  end; [|reflexivity].
  unfold tsub. rewrite !tzip_same by reflexivity. reflexivity.
Qed.

Lemma visit_weight_decay (w : R) (grp : group) (grads : list (option tensor))
    (i : nat) (p : param) :
  snd (visit (set_weight_decay w grp) grads i p) = snd (visit grp grads i p).
Proof.
  unfold visit. destruct (grads !! i) as [[g|]|]; try reflexivity.
  destruct (is_sparse g); [reflexivity|]. apply adam_update_weight_decay.
Qed.

(** C6: in an optimizer with one group, with weight decay [w] and
    everything else the same, a step that returns leaves, for every
    parameter that has a gradient, the value that the step without weight
    decay leaves, multiplied element by element by [1 − lr·w]; the step
    without weight decay returns as well, and the state (m, v, t) of the
    parameter is the same after both. *)
Theorem decoupled_decay_law (grp grp_w : group) (w : R) (i : nat) (p : param)
    (g : tensor) :
  params grp !! i = Some p -> p_grad p = Some g ->
  step [set_weight_decay w grp] = ([grp_w], None) ->
  exists grp_0 p_w p_0,
    step [set_weight_decay 0 grp] = ([grp_0], None)
    /\ params grp_w !! i = Some p_w /\ params grp_0 !! i = Some p_0
    /\ shape (p_data p_w) = shape (p_data p_0)
    /\ data (p_data p_w)
       = map (fun x => nmul x (Fin (1 - lr grp * w))) (data (p_data p_0))
    /\ p_state p_w = p_state p_0
    /\ is_Some (p_state p_w).
Proof.
  intros Hp Hg Hw.
  destruct (snapshot_single_present (set_weight_decay w grp) i p g Hp Hg)
    as (g' & Hs & _).
  pose proof (step_normal_lookup (set_weight_decay w grp) grp_w i p g' Hp Hs Hw) as Hpw.
  destruct (step_single_normal _ _ Hw) as (psw & _ & Ew).
  (* the step without weight decay returns *)
  destruct (step [set_weight_decay 0 grp]) as [opt0 r0] eqn:H0.
  assert (r0 = None) as ->.
  { assert (Hr0 : surgery_raises [set_weight_decay 0 grp] = false)
      by exact (step_normal_returns _ _ Hw).
    rewrite (step_single _ Hr0) in H0. injection H0 as _ <-.
    apply for_each_all_normal. intros k x Hk.
    rewrite snapshot_set_weight_decay, visit_weight_decay.
    rewrite <- (visit_weight_decay w), <- (snapshot_set_weight_decay w).
    destruct (for_each_normal _ _ _ _ Ew k x Hk) as [-> _]. reflexivity. }
  destruct (step_single_normal _ _ H0) as (ps0 & -> & E0).
  pose proof (step_normal_lookup (set_weight_decay 0 grp) _ i p g' Hp Hs H0) as Hp0.
  eexists _, _, _. split; [reflexivity|].
  split; [exact Hpw|]. split; [exact Hp0|].
  unfold spec_update. cbn [p_data p_state set_weight_decay with_data shape data
                           lr betas eps weight_decay].
  rewrite spec_decay_scale, spec_decay_0.
  repeat split. eexists. reflexivity.
Qed.

(** ** Sparse gradients *)

Lemma for_each_first_raise {A : Type} (body : nat -> A -> A * option error)
    (idx : nat) (l : list A) (k : nat) (y : A) (e : error) :
  l !! k = Some y ->
  snd (body (idx + k)%nat y) = Some e ->
  (forall i x, (i < k)%nat -> l !! i = Some x -> snd (body (idx + i)%nat x) = None) ->
  exists l',
    for_each body idx l = (l', Some e)
    /\ l' !! k = Some (fst (body (idx + k)%nat y))
    /\ (forall i x, (i < k)%nat -> l !! i = Some x ->
          l' !! i = Some (fst (body (idx + i)%nat x)))
    /\ (forall i, (k < i)%nat -> l' !! i = l !! i).
Proof.
  intros Hk He Hbefore.
  destruct (for_each body idx l) as [l' [e'|]] eqn:E.
  - destruct (for_each_raised _ _ _ _ _ E) as (k' & y' & Hk' & Hb' & Hl' & Hlt & Hgt).
    assert (k' = k) as ->.
    { destruct (Nat.lt_trichotomy k' k) as [H|[H|H]]; [|exact H|].
      - specialize (Hbefore k' y' H Hk'). rewrite Hb' in Hbefore. discriminate.
      - destruct (Hlt k y H Hk) as [Hn _]. rewrite Hn in He. discriminate. }
    assert (y' = y) as -> by congruence.
    rewrite Hb' in He. injection He as ->.
    exists l'. split; [reflexivity|]. split; [exact Hl'|].
    split; [|exact Hgt].
    intros i x Hi Hx. apply (Hlt i x Hi Hx).
  - destruct (for_each_normal _ _ _ _ E k y Hk) as [Hn _].
    rewrite Hn in He. discriminate.
Qed.

Lemma visit_sparse (grp : group) (grads : list (option tensor)) (i : nat)
    (p : param) (g : tensor) :
  grads !! i = Some (Some g) -> is_sparse g = true ->
  visit grp grads i p = (p, Some SparseGradient).
Proof. intros H Hg. unfold visit. rewrite H, Hg. reflexivity. Qed.

Lemma visit_dense (grp : group) (grads : list (option tensor)) (i : nat)
    (p : param) (g : tensor) :
  valid_betas grp -> wf_param p ->
  grads !! i = Some (Some g) -> is_sparse g = false ->
  shape g = shape (p_data p) ->
  visit grp grads i p = (spec_update grp g p, None).
Proof.
  intros Hb Hwf H Hg Hs. unfold visit. rewrite H, Hg.
  apply adam_update_total; assumption.
Qed.

Lemma visit_single_normal (grp : group) (i : nat) (p : param) :
  valid_betas grp -> wf_param p -> params grp !! i = Some p ->
  (forall g, p_grad p = Some g -> is_sparse g = false) ->
  visit grp (snapshot [grp]) i p = (visited grp (snapshot [grp]) i p, None).
Proof.
  intros Hb Hwf Hp Hdense. unfold visited.
  destruct (p_grad p) as [g|] eqn:Hg.
  - destruct (snapshot_single_present _ _ _ _ Hp Hg) as (g' & Hs & Hshape & Hsp).
    rewrite Hs. apply visit_dense; try assumption.
    + rewrite Hsp. apply Hdense. reflexivity.
    + rewrite Hshape. destruct Hwf as [Hwf _]. rewrite Hg in Hwf. exact Hwf.
  - rewrite (snapshot_single_absent _ _ _ Hp Hg). apply visit_absent.
    apply (snapshot_single_absent _ _ _ Hp Hg).
Qed.

(** X18: in an optimizer with one group of well-formed parameters, when
    the surgery meets no sparse operand (no sparse gradient shares its
    shape with another gradient that is present), the gradient of
    parameter [k] is sparse and no earlier one is, the step call raises the
    unsupported-gradient error on reaching [k]: the parameters before [k]
    keep their update (the one of C1 when they have a gradient), and the
    parameters from [k] on have the value and the state they had before
    the call. *)
Theorem sparse_gradient_aborts (grp : group) (k : nat) (pk : param) (s : tensor) :
  surgery_raises [grp] = false ->
  valid_betas grp ->
  Forall wf_param (params grp) ->
  params grp !! k = Some pk -> p_grad pk = Some s -> is_sparse s = true ->
  (forall i p g, (i < k)%nat -> params grp !! i = Some p ->
     p_grad p = Some g -> is_sparse g = false) ->
  exists ps,
    step [grp] = ([with_params grp ps], Some SparseGradient)
    /\ (forall i p, (i < k)%nat -> params grp !! i = Some p ->
          ps !! i = Some (visited grp (snapshot [grp]) i p))
    /\ (forall i, (k <= i)%nat -> ps !! i = params grp !! i).
Proof.
  intros Hret Hb Hwf Hk Hs Hsp Hdense.
  destruct (snapshot_single_present _ _ _ _ Hk Hs) as (s' & Hs' & _ & Hsp').
  rewrite Hsp in Hsp'.
  destruct (for_each_first_raise (visit grp (snapshot [grp])) 0 (params grp)
              k pk SparseGradient Hk) as (ps & E & Hpk & Hlt & Hgt).
  { simpl. rewrite (visit_sparse _ _ _ _ _ Hs' Hsp'). reflexivity. }
  { intros i p Hi Hp. simpl. rewrite visit_single_normal; try assumption.
    - reflexivity.
    - rewrite Forall_lookup in Hwf. exact (Hwf _ _ Hp).
    - intros g Hg. exact (Hdense i p g Hi Hp Hg). }
  exists ps. rewrite (step_single _ Hret), E. split; [reflexivity|]. split.
  - intros i p Hi Hp. rewrite (Hlt i p Hi Hp). simpl.
    rewrite visit_single_normal; try assumption.
    + reflexivity.
    + rewrite Forall_lookup in Hwf. exact (Hwf _ _ Hp).
    + intros g Hg. exact (Hdense i p g Hi Hp Hg).
  - intros i Hi. destruct (decide (i = k)) as [->|Hne].
    + rewrite Hpk, Hk. simpl. rewrite (visit_sparse _ _ _ _ _ Hs' Hsp'). reflexivity.
    + apply Hgt. lia.
Qed.

(** C9, on one group of two parameters of one shape, the first with the
    dense gradient [[1]] and the second with a sparse gradient: the snapshot
    holds both, the surgery reaches line 37 with the sparse gradient as an
    operand and torch raises there, before the loop over the parameters.
    The call ends with this exception and every parameter is as it was:
    the first one, which comes before the sparse one and has a gradient,
    has not been updated, whereas any update would have changed it. *)
Theorem sparse_peer_aborts_in_surgery :
  collect [ex_group [p_first; p_sparse] 1] = [Some (vec [1]); Some sparse_one]
  /\ sparse_operand 0 1 [Some (vec [1]); Some sparse_one] = true
  /\ step [ex_group [p_first; p_sparse] 1]
     = ([ex_group [p_first; p_sparse] 1], Some SparseGradient)
  /\ (forall g, spec_update (ex_group [p_first; p_sparse] 1) g p_first <> p_first).
Proof.
  split; [reflexivity|]. split; [reflexivity|]. split.
  - apply step_surgery_raises. apply sparse_conflict_true.
    exists 0%nat, 1%nat. split; [lia|reflexivity].
  - intros g H. apply (f_equal p_state) in H. discriminate.
Qed.

(** ** A step that returns *)

Lemma for_each_total {A : Type} (body : nat -> A -> A * option error)
    (f : nat -> A -> A) (idx : nat) (l : list A) :
  (forall i x, l !! i = Some x -> body (idx + i)%nat x = (f (idx + i)%nat x, None)) ->
  for_each body idx l = (imap (fun i => f (idx + i)%nat) l, None).
Proof.
  revert idx. induction l as [|y l IH]; intros idx H; [reflexivity|].
  cbn [for_each]. pose proof (H 0%nat y eq_refl) as Hy.
  rewrite Nat.add_0_r in Hy. rewrite Hy, (IH (S idx)).
  - cbn [imap]. rewrite Nat.add_0_r. f_equal. f_equal.
    apply imap_ext. intros i x _. simpl. f_equal. lia.
  - intros i x Hi. replace (S idx + i)%nat with (idx + S i)%nat by lia.
    apply (H (S i)). exact Hi.
Qed.

(** A step of one group of well-formed parameters with dense gradients
    and betas in [[0, 1)] returns. *)
Lemma step_single_total (grp : group) :
  valid_betas grp ->
  Forall wf_param (params grp) ->
  (forall p g, p ∈ params grp -> p_grad p = Some g -> is_sparse g = false) ->
  step [grp]
  = ([with_params grp (imap (visited grp (snapshot [grp])) (params grp))], None).
Proof.
  intros Hb Hwf Hdense. rewrite (step_single _ (surgery_dense_single _ Hdense)).
  rewrite (for_each_total _ (visited grp (snapshot [grp]))); [reflexivity|].
  intros i p Hp. apply visit_single_normal; try assumption.
  - rewrite Forall_lookup in Hwf. exact (Hwf _ _ Hp).
  - intros g Hg. apply (Hdense p g); [|exact Hg].
    apply list_elem_of_lookup. eauto.
Qed.

(** ** The constructor *)

Lemma in_unit_true (b : R) : in_unit b = true <-> 0 <= b < 1.
Proof.
  unfold in_unit. destruct (Rle_dec 0 b), (Rlt_dec b 1); split;
    intros H; try reflexivity; try discriminate; lra.
Qed.


Lemma AdamW_init_Ok (ps : list param) (lr : R) (betas : R * R) (eps wd : R)
    (cb : bool) :
  0 <= lr -> 0 <= fst betas < 1 -> 0 <= snd betas < 1 -> 0 <= eps ->
  AdamW_init ps lr betas eps wd cb
  = Ok [ {| params := map fresh ps; lr := lr; betas := betas; eps := eps;
            weight_decay := wd; correct_bias := cb |} ].
Proof.
  intros Hlr Hb0%in_unit_true Hb1%in_unit_true Heps. unfold AdamW_init.
  destruct (Rlt_dec lr 0); [lra|]. rewrite Hb0, Hb1. cbn [negb].
  destruct (Rle_dec 0 eps); [reflexivity|contradiction].
Qed.


(** ** Exceptions of a step *)


Lemma step_single_shape (grp : group) :
  exists ps, fst (step [grp]) = [with_params grp ps].
Proof.
  destruct (surgery_raises [grp]) eqn:Hraise.
  - rewrite (step_single_raises _ Hraise). eexists. reflexivity.
  - rewrite (step_single _ Hraise). eexists. reflexivity.
Qed.



(** ** The example of the specification *)

Lemma rdot_cons (x y : R) (a b : list R) : rdot (x :: a) (y :: b) = x * y + rdot a b.
Proof. reflexivity. Qed.

Lemma rdot_nil : rdot [] [] = 0.
Proof. reflexivity. Qed.

Ltac rdot_simpl := rewrite ?rdot_cons, ?rdot_nil.

Lemma example_pass :
  gradient_surgery [Some g0; Some g1; Some g2]
  = [Some (vec [1/2; -1/2]); Some (vec [1; 0]); Some g2].
Proof.
  rewrite gradient_surgery_pairs.
  change (ordered_pairs _) with [(0,1);(0,2);(1,2)]%nat.
  unfold foldl, pair_step, fst, snd, g0, g1, g2.
  rewrite (surgery_pair_vec 0 1 _ [1;0] [1;1]) by reflexivity.
  destruct (Rlt_dec 0 (rdot [1;0] [1;1])) as [_|H];
    [|exfalso; apply H; rdot_simpl; lra].
  cbn [insert list_insert].
  replace (rproject (rdot [1;0] [1;1]) [1;0] [1;1]) with [1/2; -1/2]
    by (unfold rproject; rdot_simpl; simpl; repeat f_equal; lra).
  rewrite (surgery_pair_vec 0 2 _ [1/2;-1/2] [0;1]) by reflexivity.
  destruct (Rlt_dec 0 (rdot [1/2;-1/2] [0;1])) as [H|_];
    [exfalso; revert H; rdot_simpl; lra|].
  rewrite (surgery_pair_vec 1 2 _ [1;1] [0;1]) by reflexivity.
  destruct (Rlt_dec 0 (rdot [1;1] [0;1])) as [_|H];
    [|exfalso; apply H; rdot_simpl; lra].
  cbn [insert list_insert].
  replace (rproject (rdot [1;1] [0;1]) [1;1] [0;1]) with [1; 0]
    by (unfold rproject; rdot_simpl; simpl; repeat f_equal; lra).
  reflexivity.
Qed.

Lemma g0_projected_twice_eq : g0_projected_twice = vec [1/2; 0].
Proof.
  unfold g0_projected_twice, g0, g1, g2. cbn [vec data]. rewrite dot_vec.
  rewrite project_vec; [|reflexivity|rdot_simpl; lra].
  replace (rproject (rdot [1;0] [1;1]) [1;0] [1;1]) with [1/2; -1/2]
    by (unfold rproject; rdot_simpl; simpl; repeat f_equal; lra).
  cbn [vec data]. rewrite dot_vec.
  change (Tensor [length [1/2; -1/2]] (map Fin [1/2; -1/2]) false) with (vec [1/2; -1/2]).
  change (Tensor [length [0; 1]] (map Fin [0; 1]) false) with (vec [0; 1]).
  rewrite project_vec; [|reflexivity|rdot_simpl; lra].
  unfold rproject. rdot_simpl. simpl. unfold vec. simpl. repeat f_equal; lra.
Qed.

(** C4, counterexample: for [g0 = [1, 0]], [g1 = [1, 1]], [g2 = [0, 1]] the
    dot product of [g0] and [g2] is zero, and the pass does not leave the
    [g0] that both projections would give. *)
Lemma surgery_example_not_twice :
  dot (data g0) (data g2) = Fin 0
  /\ gradient_surgery [Some g0; Some g1; Some g2] !! 0%nat
     <> Some (Some g0_projected_twice).
Proof.
  split.
  - unfold g0, g2. cbn [vec data]. rewrite dot_vec. f_equal. rdot_simpl. lra.
  - rewrite example_pass, g0_projected_twice_eq. simpl.
    intros [= H]. lra.
Qed.

(** C4 (as the code has it): on [g0 = [1, 0]], [g1 = [1, 1]],
    [g2 = [0, 1]] the pass projects [g0] once, against [g1] ([d = 1]),
    which gives [[1/2, −1/2]]; the pair of the updated [g0] and [g2] has
    [d = −1/2], which is not positive, so [g0] is not projected again;
    then [g1] is projected against [g2], which gives [[1, 0]]; [g2] is
    never modified.  The pairs are taken in ascending order of the
    indices. *)
Theorem surgery_example_trace :
  gradient_surgery [Some g0; Some g1; Some g2]
  = [Some (vec [1/2; -1/2]); Some (vec [1; 0]); Some g2]
  /\ pair_step [Some g0; Some g1; Some g2] (0, 1)%nat
     = [Some (vec [1/2; -1/2]); Some g1; Some g2]
  /\ dot (data (vec [1/2; -1/2])) (data g2) = Fin (-1/2)
  /\ pair_step [Some (vec [1/2; -1/2]); Some g1; Some g2] (0, 2)%nat
     = [Some (vec [1/2; -1/2]); Some g1; Some g2]
  /\ pair_step [Some (vec [1/2; -1/2]); Some g1; Some g2] (1, 2)%nat
     = [Some (vec [1/2; -1/2]); Some (vec [1; 0]); Some g2].
Proof.
  split; [exact example_pass|].
  unfold pair_step, fst, snd, g0, g1, g2. split; [|split; [|split]].
  - rewrite (surgery_pair_vec 0 1 _ [1;0] [1;1]) by reflexivity.
    destruct (Rlt_dec 0 (rdot [1;0] [1;1])) as [_|H];
      [|exfalso; apply H; rdot_simpl; lra].
    cbn [insert list_insert].
    replace (rproject (rdot [1;0] [1;1]) [1;0] [1;1]) with [1/2; -1/2]
      by (unfold rproject; rdot_simpl; simpl; repeat f_equal; lra).
    reflexivity.
  - cbn [vec data]. rewrite dot_vec. f_equal. rdot_simpl. lra.
  - rewrite (surgery_pair_vec 0 2 _ [1/2;-1/2] [0;1]) by reflexivity.
    destruct (Rlt_dec 0 (rdot [1/2;-1/2] [0;1])) as [H|_];
      [exfalso; revert H; rdot_simpl; lra|]. reflexivity.
  - rewrite (surgery_pair_vec 1 2 _ [1;1] [0;1]) by reflexivity.
    destruct (Rlt_dec 0 (rdot [1;1] [0;1])) as [_|H];
      [|exfalso; apply H; rdot_simpl; lra].
    cbn [insert list_insert].
    replace (rproject (rdot [1;1] [0;1]) [1;1] [0;1]) with [1; 0]
      by (unfold rproject; rdot_simpl; simpl; repeat f_equal; lra).
    reflexivity.
Qed.

(** ** Several groups *)

Lemma collect_app (opt1 opt2 : optimizer) :
  collect (opt1 ++ opt2) = collect opt1 ++ collect opt2.
Proof. unfold collect. apply flat_map_app. Qed.

(** The gradient of the [i]-th parameter of group [k] is collected at
    position [offset opt k + i] of the snapshot. *)
Lemma collect_lookup_offset (opt : optimizer) (k : nat) (grp : group)
    (i : nat) (p : param) :
  opt !! k = Some grp -> params grp !! i = Some p ->
  collect opt !! (offset opt k + i)%nat = Some (p_grad p).
Proof.
  intros Hk Hp. unfold offset.
  rewrite <- (take_drop_middle opt k grp Hk) at 2.
  rewrite collect_app, lookup_app_r by lia.
  replace (length (collect (take k opt)) + i - length (collect (take k opt)))%nat
    with i by lia.
  change (grp :: drop (S k) opt) with ([grp] ++ drop (S k) opt).
  rewrite collect_app, lookup_app_l.
  - apply collect_single_lookup. exact Hp.
  - rewrite collect_single, length_map. apply lookup_lt_Some in Hp. exact Hp.
Qed.

Lemma visit_normal_visited (grp : group) (grads : list (option tensor))
    (i : nat) (p p' : param) :
  visit grp grads i p = (p', None) -> p' = visited grp grads i p.
Proof.
  unfold visit, visited. destruct (grads !! i) as [[g|]|].
  - destruct (is_sparse g); [discriminate|].
    intros [-> _]%adam_update_Ok. reflexivity.
  - intros [= <-]. reflexivity.
  - discriminate.
Qed.

(** In a step that returns, whatever the groups, the update of the [i]-th
    parameter of a group reads entry [i] of the snapshot. *)
Lemma step_reads_in_group_index (opt opt' : optimizer) (k : nat) (grp : group)
    (i : nat) (p : param) :
  step opt = (opt', None) ->
  opt !! k = Some grp -> params grp !! i = Some p ->
  exists grp', opt' !! k = Some grp'
               /\ params grp' !! i = Some (visited grp (snapshot opt) i p).
Proof.
  intros Hstep Hk Hp. apply step_normal_loops in Hstep.
  unfold update_groups in Hstep.
  destruct (for_each_normal _ _ _ _ Hstep k grp Hk) as [Hg Hk'].
  simpl in Hg, Hk'. unfold update_group in Hg, Hk'.
  destruct (for_each (visit grp (snapshot opt)) 0 (params grp)) as [ps r] eqn:E.
  simpl in Hg, Hk'. injection Hg as ->.
  eexists. split; [exact Hk'|]. cbn [params with_params].
  destruct (for_each_normal _ _ _ _ E i p Hp) as [Hv ->]. f_equal.
  simpl in *. apply (visit_normal_visited _ _ _ _ _ Hv).
Qed.

(** ** Two groups *)

Lemma in_unit_0 : in_unit 0 = true.
Proof. apply in_unit_true. lra. Qed.

Lemma ex_group_valid (ps : list param) (eps : R) : valid_betas (ex_group ps eps).
Proof. split; exact in_unit_0. Qed.

Lemma snapshot_two_groups :
  snapshot two_groups = [Some (vec [1]); Some (vec [-1])].
Proof.
  unfold snapshot.
  change (collect two_groups) with [Some (vec [1]); Some (vec [-1])].
  change (Some <$> present [Some (vec [1]); Some (vec [-1])])
    with [Some (vec [1]); Some (vec [-1])].
  rewrite gradient_surgery_pairs.
  change (ordered_pairs _) with [(0,1)]%nat.
  unfold foldl, pair_step, fst, snd.
  rewrite (surgery_pair_vec 0 1 _ [1] [-1]) by reflexivity.
  destruct (Rlt_dec 0 (rdot [1] [-1])) as [H|_];
    [exfalso; revert H; rdot_simpl; lra|].
  reflexivity.
Qed.

(** C3, on two groups of one parameter each: the snapshot holds the copy
    of the gradient of each parameter at its position in managed order,
    [[1]] then [[−1]], and the surgery leaves both.  The update of the
    parameter of the second group reads entry 0 of the snapshot, the
    gradient of the parameter of the first group, and not its own, which
    is entry 1: the step leaves it what the update gives for [[1]], which
    differs from what the update gives for its own gradient [[−1]]. *)
Theorem second_group_reads_first_gradient :
  collect two_groups = [Some (vec [1]); Some (vec [-1])]
  /\ snapshot two_groups = [Some (vec [1]); Some (vec [-1])]
  /\ step two_groups
     = ([with_params (ex_group [p_first] 1)
           [spec_update (ex_group [p_first] 1) (vec [1]) p_first];
         with_params (ex_group [p_second] 1)
           [spec_update (ex_group [p_second] 1) (vec [1]) p_second]], None)
  /\ spec_update (ex_group [p_second] 1) (vec [1]) p_second
     <> spec_update (ex_group [p_second] 1) (vec [-1]) p_second.
Proof.
  split; [reflexivity|]. split; [exact snapshot_two_groups|]. split.
  - rewrite step_surgery_returns by reflexivity.
    unfold update_groups. rewrite snapshot_two_groups.
    unfold two_groups. cbn [for_each]. unfold update_group.
    cbn [for_each params ex_group]. unfold visit.
    cbn [lookup list_lookup vec is_sparse].
    rewrite !adam_update_total;
      try (apply ex_group_valid); try (split; [reflexivity|exact I]);
      try reflexivity.
  - unfold spec_update. intros H. injection H as _ H _.
    revert H. unfold spec_m, state_of. simpl. intros [= H]. lra.
Qed.

(** ** Zero gradients *)

Lemma spec_m_zeros (beta : R) (l : list num) :
  spec_m beta (zeros l) (zeros l) = zeros l.
Proof.
  unfold spec_m, zeros. induction l as [|x l IH]; [reflexivity|].
  cbn [map zip_with]. f_equal; [|exact IH]. simpl. f_equal. ring.
Qed.

Lemma spec_v_zeros (beta : R) (l : list num) :
  spec_v beta (zeros l) (zeros l) = zeros l.
Proof.
  unfold spec_v, zeros. induction l as [|x l IH]; [reflexivity|].
  cbn [map zip_with]. f_equal; [|exact IH]. simpl. f_equal. ring.
Qed.

Lemma spec_p_zeros (a eps : R) (l : list num) :
  0 < eps -> spec_p a eps l (zeros l) (zeros l) = l.
Proof.
  intros Heps. unfold spec_p, zeros.
  induction l as [|x l IH]; [reflexivity|].
  cbn [map zip_with]. f_equal; [|exact IH].
  rewrite nsqrt_Fin by lra. rewrite sqrt_0. cbn [nadd nmul nlift2].
  rewrite ndiv_Fin by lra.
  destruct x as [x|]; simpl; [|reflexivity]. f_equal. field. lra.
Qed.

Lemma with_data_id (t : tensor) : with_data t (data t) = t.
Proof. destruct t. reflexivity. Qed.

Lemma spec_update_zero_grad (grp : group) (t : tensor) (n : nat) :
  0 < eps grp -> weight_decay grp = 0 ->
  spec_update grp (zero_grad t) (zero_grad_after t n) = zero_grad_after t (S n).
Proof.
  intros Heps Hwd. unfold spec_update.
  assert (Hs : state_of (zero_grad_after t n)
               = {| st_m := zeros_like t; st_v := zeros_like t; st_t := n |})
    by (destruct n; reflexivity).
  rewrite Hs. cbn [st_m st_v st_t zero_grad_after zero_grad data p_data p_grad].
  change (data (zeros_like t)) with (zeros (data t)).
  rewrite spec_m_zeros, spec_v_zeros, spec_p_zeros by exact Heps.
  rewrite Hwd, spec_decay_0, with_data_id. reflexivity.
Qed.

Lemma step_zero_grad (grp : group) (t : tensor) (n : nat) :
  valid_betas grp -> 0 < eps grp -> weight_decay grp = 0 ->
  params grp = [zero_grad_after t n] ->
  step [grp] = ([with_params grp [zero_grad_after t (S n)]], None).
Proof.
  intros Hb Heps Hwd Hps. rewrite step_single_total.
  - rewrite Hps. cbn [imap]. unfold visited.
    assert (Hs : snapshot [grp] = [Some (zero_grad t)])
      by (unfold snapshot, collect; cbn [flat_map]; rewrite Hps; reflexivity).
    rewrite Hs. cbn [lookup list_lookup].
    rewrite spec_update_zero_grad by assumption. reflexivity.
  - exact Hb.
  - rewrite Hps. constructor; [|constructor].
    split; [reflexivity|]. destruct n; [exact I|split; reflexivity].
  - rewrite Hps. intros p g [->|[]%elem_of_nil]%elem_of_cons [= <-]. reflexivity.
Qed.

Lemma steps_zero_grad (n : nat) :
  forall (grp : group) (t : tensor) (k : nat),
  valid_betas grp -> 0 < eps grp -> weight_decay grp = 0 ->
  params grp = [zero_grad_after t k] ->
  steps n [grp] = ([with_params grp [zero_grad_after t (k + n)]], None).
Proof.
  induction n as [|n IH]; intros grp t k Hb Heps Hwd Hps.
  - cbn [steps]. rewrite Nat.add_0_r, <- Hps. destruct grp. reflexivity.
  - cbn [steps]. rewrite (step_zero_grad grp t k) by assumption.
    rewrite (IH _ t (S k)); try assumption; try reflexivity.
    replace (S k + n)%nat with (k + S n)%nat by lia. reflexivity.
Qed.

(** C8 (as the code has it): for a parameter alone in its optimizer,
    hyperparameters that the constructor accepts with [weight_decay = 0],
    and [eps > 0], any number [n] of steps with an all-zero gradient all
    return and leave the value of the parameter exactly as it was,
    [m = 0] and [v = 0], and [t = n]. *)
Theorem zero_gradient_idempotent (t : tensor) (lr : R) (betas : R * R)
    (eps : R) (cb : bool) (opt : optimizer) (n : nat) :
  AdamW_init [zero_grad_param t] lr betas eps 0 cb = Ok opt ->
  0 < eps ->
  steps n opt
  = ([ {| params := [zero_grad_after t n]; lr := lr; betas := betas;
          eps := eps; weight_decay := 0; correct_bias := cb |} ], None).
Proof.
  intros Hinit Heps.
  assert (Hb : in_unit (fst betas) = true /\ in_unit (snd betas) = true /\ 0 <= lr).
  { revert Hinit. unfold AdamW_init.
    destruct (Rlt_dec lr 0); [discriminate|].
    destruct (in_unit (fst betas)); cbn [negb]; [|discriminate].
    destruct (in_unit (snd betas)); cbn [negb]; [|discriminate].
    intros _. repeat split. lra. }
  destruct Hb as (Hb0 & Hb1 & Hlr).
  rewrite (AdamW_init_Ok _ _ _ _ _ _ Hlr (proj1 (in_unit_true _) Hb0)
             (proj1 (in_unit_true _) Hb1) (Rlt_le _ _ Heps)) in Hinit.
  injection Hinit as <-.
  rewrite (steps_zero_grad n _ t 0); try assumption; try reflexivity.
  split; assumption.
Qed.

(** C8, counterexample: [eps = 0] is accepted by the constructor, and
    then one step with a zero gradient divides zero by zero: the value of
    the parameter is no longer the one it had. *)
Lemma zero_gradient_eps_zero :
  AdamW_init [zero_grad_param (vec [1])] 1 (0, 0) 0 0 true
  = Ok [ex_group [zero_grad_param (vec [1])] 0]
  /\ exists p,
       step [ex_group [zero_grad_param (vec [1])] 0] = ([ex_group [p] 0], None)
       /\ data (p_data p) = [NonFin]
       /\ p_data p <> vec [1].
Proof.
  split.
  - apply AdamW_init_Ok; simpl; lra.
  - eexists. split; [|split].
    + rewrite step_single_total.
      * cbn [params ex_group imap]. unfold visited.
        change (snapshot _) with [Some (zero_grad (vec [1]))].
        cbn [lookup list_lookup]. reflexivity.
      * apply ex_group_valid.
      * constructor; [|constructor]. split; [reflexivity|exact I].
      * intros p g [->|[]%elem_of_nil]%elem_of_cons [= <-]. reflexivity.
    + unfold spec_update, spec_decay, spec_p, spec_m, spec_v, state_of.
      cbn -[ndiv nsqrt Rmult Rplus Rminus pow].
      replace (0 * 0 + (1 - 0) * (0 * 0)) with 0 by lra.
      rewrite nsqrt_Fin by lra. rewrite sqrt_0. cbn [nadd nlift2].
      replace (0 + 0) with 0 by lra.
      rewrite ndiv_zero. reflexivity.
    + intros H. apply (f_equal data) in H. revert H.
      unfold spec_update, spec_decay, spec_p, spec_m, spec_v, state_of.
      cbn -[ndiv nsqrt Rmult Rplus Rminus pow].
      replace (0 * 0 + (1 - 0) * (0 * 0)) with 0 by lra.
      rewrite nsqrt_Fin by lra. rewrite sqrt_0. cbn [nadd nlift2].
      replace (0 + 0) with 0 by lra.
      rewrite ndiv_zero. discriminate.
Qed.

(** ** Instances *)

Lemma one_group_step : step [one_group] = ([one_group_after], None).
Proof.
  apply step_single_total.
  - apply ex_group_valid.
  - constructor; [|constructor]. split; [reflexivity|exact I].
  - intros p g [->|[]%elem_of_nil]%elem_of_cons [= <-]. reflexivity.
Qed.





(** C6 at weight decay [1/2]. *)
Lemma decoupled_decay_law_witness :
  exists grp_0 p_w p_0,
    step [set_weight_decay 0 one_group] = ([grp_0], None)
    /\ params decay_group_after !! 0%nat = Some p_w
    /\ params grp_0 !! 0%nat = Some p_0
    /\ shape (p_data p_w) = shape (p_data p_0)
    /\ data (p_data p_w)
       = map (fun x => nmul x (Fin (1 - lr one_group * (1/2)))) (data (p_data p_0))
    /\ p_state p_w = p_state p_0
    /\ is_Some (p_state p_w).
Proof.
  apply (decoupled_decay_law one_group decay_group_after (1/2) 0 p_first (vec [1])).
  - reflexivity.
  - reflexivity.
  - apply (step_single_total decay_group).
    + apply (ex_group_valid [p_first] 1).
    + constructor; [|constructor]. split; [reflexivity|exact I].
    + intros p g [->|[]%elem_of_nil]%elem_of_cons [= <-]. reflexivity.
Defined.

(** X18 at a dense gradient of two elements followed by a sparse one of
    one element. *)
Lemma sparse_gradient_aborts_witness :
  exists ps,
    step [ex_group [p_wide; p_sparse] 1]
    = ([with_params (ex_group [p_wide; p_sparse] 1) ps], Some SparseGradient)
    /\ (forall i p, (i < 1)%nat ->
          params (ex_group [p_wide; p_sparse] 1) !! i = Some p ->
          ps !! i
          = Some (visited (ex_group [p_wide; p_sparse] 1)
                    (snapshot [ex_group [p_wide; p_sparse] 1]) i p))
    /\ (forall i, (1 <= i)%nat ->
          ps !! i = params (ex_group [p_wide; p_sparse] 1) !! i).
Proof.
  apply (sparse_gradient_aborts (ex_group [p_wide; p_sparse] 1) 1 p_sparse sparse_one).
  - reflexivity.
  - apply ex_group_valid.
  - repeat constructor.
  - reflexivity.
  - reflexivity.
  - reflexivity.
  - intros [|i] p g Hi Hp Hg; [|lia].
    injection Hp as <-. injection Hg as <-. reflexivity.
Defined.



(** C8 at two steps with [eps = 1]. *)
Lemma zero_gradient_idempotent_witness :
  steps 2 [ex_group [zero_grad_param (vec [1])] 1]
  = ([ {| params := [zero_grad_after (vec [1]) 2]; lr := 1; betas := (0, 0);
          eps := 1; weight_decay := 0; correct_bias := true |} ], None).
Proof.
  apply (zero_gradient_idempotent (vec [1]) 1 (0, 0) 1 true).
  - apply AdamW_init_Ok; simpl; lra.
  - lra.
Defined.

(** * Further properties *)

(** ** The pass without conflict *)

Lemma pair_steps_fixed (l : list (nat * nat)) (grads : list (option tensor)) :
  (forall ij, ij ∈ l -> pair_step grads ij = grads) ->
  foldl pair_step grads l = grads.
Proof.
  induction l as [|ij l IH]; intros H; [reflexivity|].
  cbn [foldl]. rewrite (H ij) by left. apply IH.
  intros ij' Hij'. apply H. right. exact Hij'.
Qed.

(** X1: the pass changes nothing when no pair of present gradients
    [i < j] has both one shape and a positive dot product: gradients of
    different shapes, as those of the layers of a model mostly are, pass
    through untouched. *)
Theorem surgery_identity_without_conflict (grads : list (option tensor)) :
  (forall i j g_i g_j, (i < j)%nat ->
     grads !! i = Some (Some g_i) -> grads !! j = Some (Some g_j) ->
     shape g_i <> shape g_j \/ gt0 (dot (data g_i) (data g_j)) = false) ->
  gradient_surgery grads = grads.
Proof.
  intros H. rewrite gradient_surgery_pairs. apply pair_steps_fixed.
  intros [i j] Hij%elem_of_ordered_pairs. unfold pair_step, surgery_pair. cbn [fst snd].
  destruct (grads !! i) as [[g_i|]|] eqn:Hi; try reflexivity.
  destruct (grads !! j) as [[g_j|]|] eqn:Hj; try reflexivity.
  destruct (H i j g_i g_j ltac:(lia) Hi Hj) as [Hs|Hd].
  - rewrite decide_False by exact Hs. reflexivity.
  - unfold flatten. rewrite Hd. destruct (decide _); reflexivity.
Qed.

Lemma pair_steps_frame (l : list (nat * nat)) (grads : list (option tensor)) (k : nat) :
  (forall ij, ij ∈ l -> fst ij <> k) ->
  foldl pair_step grads l !! k = grads !! k.
Proof.
  revert grads. induction l as [|ij l IH]; intros grads H; [reflexivity|].
  cbn [foldl]. rewrite IH by (intros ij' Hij'; apply H; right; exact Hij').
  apply surgery_pair_frame. intros ->. apply (H ij); [left|reflexivity].
Qed.

(** X4: the last entry of the list is never written by the pass: only
    the first gradient of a pair is. *)
Theorem surgery_keeps_last (grads : list (option tensor)) :
  gradient_surgery grads !! (length grads - 1)%nat
  = grads !! (length grads - 1)%nat.
Proof.
  rewrite gradient_surgery_pairs. apply pair_steps_frame.
  intros [i j] Hij%elem_of_ordered_pairs. simpl. lia.
Qed.

(** ** Projections of real vectors *)

Lemma rproject_axpy (d : R) (a b : list R) :
  rproject d a b = axpy (d / rdot b b) a b.
Proof. reflexivity. Qed.

Lemma rdot_axpy_l (c : R) (a b e : list R) :
  length a = length b -> length b = length e ->
  rdot (axpy c a b) e = rdot a e - c * rdot b e.
Proof.
  revert b e. induction a as [|x a IH]; intros [|y b] [|z e] Hab Hbe;
    try discriminate; unfold rdot, axpy in *; simpl in *; [lra|].
  rewrite IH by lia. lra.
Qed.

Lemma rdot_sym (a b : list R) : rdot a b = rdot b a.
Proof.
  revert b. induction a as [|x a IH]; intros [|y b]; unfold rdot in *; simpl;
    try reflexivity.
  rewrite IH. lra.
Qed.

Lemma axpy_length (c : R) (a b : list R) :
  length a = length b -> length (axpy c a b) = length a.
Proof. intros H. unfold axpy. rewrite length_zip_with. lia. Qed.

Lemma rdot_self_nonneg (a : list R) : 0 <= rdot a a.
Proof.
  induction a as [|x a IH]; unfold rdot in *; simpl; [lra|nra].
Qed.

(** The projection against [b] removes the component along [b] and does
    not lengthen the vector. *)
Lemma rproject_orthogonal (a b : list R) :
  length a = length b -> 0 < rdot b b ->
  rdot (rproject (rdot a b) a b) b = 0
  /\ rdot (rproject (rdot a b) a b) (rproject (rdot a b) a b)
     = rdot a a - rdot a b * rdot a b / rdot b b.
Proof.
  intros Hl Hs. rewrite rproject_axpy.
  set (c := rdot a b / rdot b b).
  assert (Hc : c * rdot b b = rdot a b) by (unfold c; field; lra).
  split.
  - rewrite rdot_axpy_l by congruence. lra.
  - rewrite rdot_axpy_l by (rewrite ?axpy_length; congruence).
    rewrite (rdot_sym a (axpy c a b)), (rdot_sym b (axpy c a b)).
    rewrite !rdot_axpy_l by congruence.
    rewrite (rdot_sym b a).
    replace (rdot a b * rdot a b / rdot b b) with (c * rdot a b)
      by (unfold c; field; lra).
    nra.
Qed.

(** ** Gradients of reals *)

Lemma fin_list_reals (l : list num) :
  Forall is_fin l -> exists a, l = map Fin a.
Proof.
  induction 1 as [|x l Hx _ [a ->]]; [exists []; reflexivity|].
  destruct x as [r|]; [|destruct Hx]. exists (r :: a). reflexivity.
Qed.

Lemma project_reals (d : R) (g_i g_j : tensor) (a b : list R) :
  data g_i = map Fin a -> data g_j = map Fin b -> rdot b b <> 0 ->
  data (project (Fin d) g_i g_j) = map Fin (rproject d a b).
Proof.
  intros Ha Hb Hs. unfold project, rproject. cbn [with_data data].
  rewrite Ha, Hb, sum_squares_vec, ndiv_Fin by exact Hs.
  generalize (d / rdot b b) as c. intros c. clear.
  revert b. induction a as [|x a IH]; intros [|y b]; simpl; try reflexivity.
  f_equal. apply IH.
Qed.

Lemma projection_orthogonal_aux (grads : list (option tensor)) (i j : nat)
    (g_i g_j : tensor) :
  grads !! i = Some (Some g_i) -> grads !! j = Some (Some g_j) ->
  shape g_i = shape g_j ->
  fin_tensor g_i -> fin_tensor g_j ->
  length (data g_i) = length (data g_j) ->
  gt0 (dot (data g_i) (data g_j)) = true ->
  exists g_i' s s',
    surgery_pair i j grads !! i = Some (Some g_i')
    /\ dot (data g_i') (data g_j) = Fin 0
    /\ sum_squares (data g_i) = Fin s
    /\ sum_squares (data g_i') = Fin s'
    /\ s' <= s.
Proof.
  intros Hi Hj Hshape [a Ha]%fin_list_reals [b Hb]%fin_list_reals Hlen Hgt.
  rewrite (surgery_pair_target _ _ _ _ _ Hi Hj), decide_True, Hgt by exact Hshape.
  rewrite Ha, Hb, dot_vec in *.
  apply gt0_true in Hgt as (d & [= <-] & Hd).
  pose proof (rdot_pos _ _ Hd) as Hs.
  rewrite !length_map in Hlen.
  destruct (rproject_orthogonal a b Hlen Hs) as [Ho Hn].
  eexists _, (rdot a a), _. split; [reflexivity|].
  rewrite (project_reals _ _ _ a b Ha Hb) by lra.
  rewrite dot_vec, !sum_squares_vec, Ho, Hn.
  repeat split.
  pose proof (rdot_self_nonneg b).
  assert (0 <= rdot a b * rdot a b / rdot b b).
  { apply Rmult_le_pos; [nra|]. apply Rlt_le, Rinv_0_lt_compat, Hs. }
  lra.
Qed.

Lemma wf_same_shape_length (g_i g_j : tensor) :
  wf_tensor g_i -> wf_tensor g_j -> shape g_i = shape g_j ->
  length (data g_i) = length (data g_j).
Proof. unfold wf_tensor. intros -> -> ->. reflexivity. Qed.

(** X2: when a pair of gradients of reals of one shape has a positive dot
    product, the pass leaves in place of [g_i] a gradient orthogonal to
    [g_j], whose squared norm is not larger than that of [g_i]. *)
Theorem projection_orthogonal (grads : list (option tensor)) (i j : nat)
    (g_i g_j : tensor) :
  grads !! i = Some (Some g_i) -> grads !! j = Some (Some g_j) ->
  shape g_i = shape g_j ->
  fin_tensor g_i -> wf_tensor g_i -> fin_tensor g_j -> wf_tensor g_j ->
  gt0 (dot (data g_i) (data g_j)) = true ->
  exists g_i' s s',
    surgery_pair i j grads !! i = Some (Some g_i')
    /\ dot (data g_i') (data g_j) = Fin 0
    /\ sum_squares (data g_i) = Fin s
    /\ sum_squares (data g_i') = Fin s'
    /\ s' <= s.
Proof.
  intros Hi Hj Hshape Hfi Hwi Hfj Hwj Hgt.
  apply (projection_orthogonal_aux grads i j g_i g_j); try assumption.
  apply wf_same_shape_length; assumption.
Qed.

Lemma norms_le_refl (gs : list (option tensor)) :
  real_grads gs -> norms_le gs gs.
Proof.
  intros H k g Hk. destruct (H k g Hk) as [Hfin _].
  destruct (sum_squares_fin _ Hfin) as [s Hs].
  exists g, s, s. repeat split; try assumption. lra.
Qed.

Lemma norms_le_trans (gs1 gs2 gs3 : list (option tensor)) :
  norms_le gs2 gs1 -> norms_le gs3 gs2 -> norms_le gs3 gs1.
Proof.
  intros H12 H23 k g Hk.
  destruct (H12 k g Hk) as (g2 & s & s2 & Hk2 & Hs & Hs2 & Hle).
  destruct (H23 k g2 Hk2) as (g3 & s2' & s3 & Hk3 & Hs2' & Hs3 & Hle').
  rewrite Hs2 in Hs2'. injection Hs2' as <-.
  exists g3, s, s3. repeat split; try assumption. lra.
Qed.

Lemma project_wf (d : num) (g_i g_j : tensor) :
  wf_tensor g_i -> length (data g_i) = length (data g_j) ->
  wf_tensor (project d g_i g_j).
Proof.
  unfold wf_tensor, project. cbn [with_data data shape].
  intros <- Hl. rewrite length_zip_with. lia.
Qed.

Lemma surgery_pair_real (i j : nat) (grads : list (option tensor)) :
  real_grads grads ->
  real_grads (surgery_pair i j grads) /\ norms_le (surgery_pair i j grads) grads.
Proof.
  intros Hreal.
  destruct (grads !! i) as [[g_i|]|] eqn:Hi;
    [|rewrite surgery_pair_absent by (left; exact Hi);
      split; [exact Hreal|apply norms_le_refl, Hreal]
     |unfold surgery_pair; rewrite Hi;
      split; [exact Hreal|apply norms_le_refl, Hreal]].
  destruct (grads !! j) as [[g_j|]|] eqn:Hj;
    [|rewrite surgery_pair_absent by (right; exact Hj);
      split; [exact Hreal|apply norms_le_refl, Hreal]
     |unfold surgery_pair; rewrite Hi, Hj;
      split; [exact Hreal|apply norms_le_refl, Hreal]].
  destruct (Hreal i g_i Hi) as [Hfi Hwi], (Hreal j g_j Hj) as [Hfj Hwj].
  pose proof (surgery_pair_target _ _ _ _ _ Hi Hj) as Ht.
  destruct (decide (shape g_i = shape g_j)) as [Hshape|Hshape];
    [|assert (surgery_pair i j grads = grads) as ->
        by (unfold surgery_pair; rewrite Hi, Hj, decide_False by exact Hshape;
            reflexivity);
      split; [exact Hreal|apply norms_le_refl, Hreal]].
  destruct (gt0 (dot (data g_i) (data g_j))) eqn:Hgt;
    [|assert (surgery_pair i j grads = grads) as ->
        by (unfold surgery_pair, flatten;
            rewrite Hi, Hj, decide_True, Hgt by exact Hshape; reflexivity);
      split; [exact Hreal|apply norms_le_refl, Hreal]].
  pose proof (wf_same_shape_length _ _ Hwi Hwj Hshape) as Hlen.
  destruct (projection_orthogonal_aux grads i j g_i g_j Hi Hj Hshape Hfi Hfj Hlen Hgt)
    as (g_i' & s & s' & Hi' & _ & Hs & Hs' & Hle).
  rewrite Ht in Hi'. injection Hi' as Hg'.
  split.
  - intros k g Hk. destruct (decide (k = i)) as [->|Hne].
    + rewrite Ht in Hk. injection Hk as <-. split.
      * pose proof (surgery_pair_fin i j grads (fun k g H => proj1 (Hreal k g H)))
          as Hfin.
        apply (Hfin i). rewrite Ht. reflexivity.
      * apply project_wf; assumption.
    + rewrite surgery_pair_frame in Hk by exact Hne. exact (Hreal k g Hk).
  - intros k g Hk. destruct (decide (k = i)) as [->|Hne].
    + rewrite Hi in Hk. injection Hk as <-.
      exists g_i', s, s'. rewrite Ht, Hg'. repeat split; assumption.
    + destruct (Hreal k g Hk) as [Hfin _].
      destruct (sum_squares_fin _ Hfin) as [sk Hsk].
      exists g, sk, sk. rewrite surgery_pair_frame by exact Hne.
      repeat split; try assumption. lra.
Qed.

Lemma pair_steps_real (l : list (nat * nat)) (grads : list (option tensor)) :
  real_grads grads ->
  real_grads (foldl pair_step grads l) /\ norms_le (foldl pair_step grads l) grads.
Proof.
  revert grads. induction l as [|ij l IH]; intros grads Hreal.
  - split; [exact Hreal|apply norms_le_refl, Hreal].
  - cbn [foldl]. destruct (surgery_pair_real (fst ij) (snd ij) grads Hreal)
      as [Hreal1 Hle1].
    destruct (IH _ Hreal1) as [Hreal2 Hle2].
    split; [exact Hreal2|]. eapply norms_le_trans; eassumption.
Qed.

(** X3: on gradients of reals that hold the elements of their shapes, the
    pass gives gradients of the same kind, and no gradient comes out with
    a larger squared norm than it went in with. *)
Theorem surgery_never_lengthens (grads : list (option tensor)) :
  real_grads grads ->
  real_grads (gradient_surgery grads)
  /\ forall k g, grads !! k = Some (Some g) ->
       exists g' s s',
         gradient_surgery grads !! k = Some (Some g')
         /\ sum_squares (data g) = Fin s
         /\ sum_squares (data g') = Fin s'
         /\ s' <= s.
Proof.
  intros Hreal. rewrite gradient_surgery_pairs.
  apply pair_steps_real, Hreal.
Qed.

(** ** What every step keeps *)

Lemma for_each_pointwise {A : Type} (R : A -> A -> Prop)
    (body : nat -> A -> A * option error) (idx : nat) (l : list A) :
  (forall x, R x x) ->
  (forall i x, R x (fst (body i x))) ->
  Forall2 R l (fst (for_each body idx l)).
Proof.
  intros Hrefl Hbody. revert idx.
  induction l as [|x l IH]; intros idx; [constructor|].
  cbn [for_each]. pose proof (Hbody idx x) as Hx.
  destruct (body idx x) as [x' [e|]]; cbn [fst] in *.
  - constructor; [exact Hx|]. clear -Hrefl. induction l; constructor; auto.
  - specialize (IH (S idx)).
    destruct (for_each body (S idx) l) as [l' r]. cbn [fst] in *.
    constructor; assumption.
Qed.

Lemma step_pointwise (R : param -> param -> Prop) (opt : optimizer) :
  (forall p, R p p) ->
  (forall grp grads i p, R p (fst (visit grp grads i p))) ->
  Forall2 (group_rel R) opt (fst (step opt)).
Proof.
  intros Hrefl Hvisit.
  assert (Hgrp : forall grp, group_rel R grp grp).
  { intros grp. repeat split. clear -Hrefl.
    induction (params grp); constructor; auto. }
  destruct (step_cases opt) as [[_ ->]|[_ ->]]; cbn [fst].
  { clear -Hgrp. induction opt; constructor; auto. }
  unfold update_groups. apply for_each_pointwise.
  - exact Hgrp.
  - intros _ grp. unfold update_group.
    pose proof (for_each_pointwise R (visit grp (snapshot opt)) 0 (params grp)
                  Hrefl (Hvisit grp (snapshot opt))) as H.
    destruct (for_each (visit grp (snapshot opt)) 0 (params grp)) as [ps r].
    repeat split. exact H.
Qed.

(** The three ways the update of one parameter ends. *)
Lemma adam_update_cases (grp : group) (g : tensor) (p : param) :
  let p' := fst (adam_update grp g p) in
  p_grad p' = p_grad p
  /\ shape (p_data p') = shape (p_data p)
  /\ is_sparse (p_data p') = is_sparse (p_data p)
  /\ ((p_state p' = Some (state_of p))
      \/ exists m v,
           p_state p' = Some {| st_m := m; st_v := v; st_t := S (st_t (state_of p)) |}
           /\ shape m = shape (st_m (state_of p))
           /\ shape v = shape (st_v (state_of p))).
Proof.
  unfold adam_update. fold (state_of p).
  destruct (betas grp) as [beta1 beta2].
  destruct (tadd _ _) as [m|e1] eqn:Em; cbn [bind];
    [|cbn; repeat split; left; reflexivity].
  destruct (tadd _ (smul _ (square g))) as [v|e2] eqn:Ev; cbn [bind];
    [|cbn; repeat split; left; reflexivity].
  destruct (alpha_t _ _ _ _) as [a|e3]; cbn [bind];
    [|cbn; repeat split; left; reflexivity].
  destruct (tdiv _ _) as [u|e4]; cbn [bind];
    [|cbn; repeat split; left; reflexivity].
  destruct (tsub _ _) as [d|e5] eqn:Ed; cbn [bind];
    [|cbn; repeat split; left; reflexivity].
  apply tzip_Ok in Em as [_ ->], Ev as [_ ->], Ed as [_ ->].
  destruct (tsub _ _) as [d'|e6] eqn:Ed'.
  - apply tzip_Ok in Ed' as [_ ->]. cbn. repeat split.
    right. eexists _, _. repeat split.
  - cbn. repeat split. left. reflexivity.
Qed.

Lemma visit_kept (grp : group) (grads : list (option tensor)) (i : nat) (p : param) :
  param_kept p (fst (visit grp grads i p)).
Proof.
  assert (Hrefl : param_kept p p) by (repeat split).
  unfold visit. destruct (grads !! i) as [[g|]|]; try exact Hrefl.
  destruct (is_sparse g); [exact Hrefl|].
  destruct (adam_update_cases grp g p) as (H1 & H2 & H3 & _).
  split; [exact H1|]. split; [exact H2|exact H3].
Qed.

Lemma visit_counter (grp : group) (grads : list (option tensor)) (i : nat) (p : param) :
  counter_step p (fst (visit grp grads i p)).
Proof.
  assert (Hrefl : counter_step p p) by (split; [left; reflexivity|auto]).
  unfold visit. destruct (grads !! i) as [[g|]|]; try exact Hrefl.
  destruct (is_sparse g); [exact Hrefl|].
  destruct (adam_update_cases grp g p) as (_ & _ & _ & [Hs|(m & v & Hs & _)]);
    unfold counter_step, t_of, state_of at 1 3; rewrite Hs; (split; [|eauto]).
  - left. reflexivity.
  - right. reflexivity.
Qed.

Lemma visit_wf (grp : group) (grads : list (option tensor)) (i : nat) (p : param) :
  wf_param p -> wf_param (fst (visit grp grads i p)).
Proof.
  intros Hwf. unfold visit. destruct (grads !! i) as [[g|]|]; try exact Hwf.
  destruct (is_sparse g); [exact Hwf|].
  destruct (state_of_shape p Hwf) as [Hm Hv].
  destruct (adam_update_cases grp g p) as (Hg & Hshape & _ & Hs).
  destruct Hwf as [Hwg _]. unfold wf_param. rewrite Hg, Hshape. split; [exact Hwg|].
  destruct Hs as [->|(m & v & -> & Hm' & Hv')]; cbn [st_m st_v];
    split; congruence.
Qed.


(** X6: whatever the groups and whether it returns or raises, a step
    leaves the counter [t] of every parameter as it was or one larger, and
    never drops the state of a parameter that had one. *)
Theorem step_counter_monotone (opt : optimizer) :
  Forall2 (group_rel counter_step) opt (fst (step opt)).
Proof.
  apply step_pointwise.
  - intros p. split; [left; reflexivity|auto].
  - apply visit_counter.
Qed.

(** ** Bounds of the snapshot *)

Lemma collect_length_group (opt : optimizer) (grp : group) :
  grp ∈ opt -> (length (params grp) <= length (collect opt))%nat.
Proof.
  intros [k Hk]%list_elem_of_lookup.
  rewrite <- (take_drop_middle opt k grp Hk), collect_app.
  change (grp :: drop (S k) opt) with ([grp] ++ drop (S k) opt).
  rewrite collect_app, !length_app, collect_single, length_map. lia.
Qed.

Lemma for_each_raised_at {A : Type} (body : nat -> A -> A * option error)
    (idx : nat) (l : list A) (e : error) :
  snd (for_each body idx l) = Some e ->
  exists k x, l !! k = Some x /\ snd (body (idx + k)%nat x) = Some e.
Proof.
  destruct (for_each body idx l) as [l' r] eqn:E. simpl. intros ->.
  destruct (for_each_raised _ _ _ _ _ E) as (k & x & Hk & Hb & _).
  exists k, x. split; [exact Hk|]. rewrite Hb. reflexivity.
Qed.

(** X9: the index [idx] of the update loop is always within the snapshot,
    which has one entry per parameter of all the groups: a step never
    raises an index error. *)
Theorem step_index_in_range (opt : optimizer) :
  (forall grp idx, grp ∈ opt -> (idx < length (params grp))%nat ->
     is_Some (snapshot opt !! idx))
  /\ snd (step opt) <> Some IndexError.
Proof.
  assert (Hrange : forall grp idx, grp ∈ opt -> (idx < length (params grp))%nat ->
                     is_Some (snapshot opt !! idx)).
  { intros grp idx Hin Hidx. apply lookup_lt_is_Some.
    rewrite snapshot_length. pose proof (collect_length_group opt grp Hin). lia. }
  split; [exact Hrange|].
  intros He.
  destruct (step_cases opt) as [[_ Hs]|[_ Hs]]; rewrite Hs in He;
    [discriminate|].
  unfold update_groups in He.
  destruct (for_each_raised_at _ _ _ _ He) as (k & grp & Hk & Hg).
  unfold update_group in Hg.
  destruct (for_each (visit grp (snapshot opt)) 0 (params grp)) as [ps r] eqn:E.
  simpl in Hg. subst r.
  destruct (for_each_raised_at (visit grp (snapshot opt)) 0 (params grp) IndexError)
    as (i & p & Hi & Hv); [rewrite E; reflexivity|].
  destruct (Hrange grp i) as [x Hx].
  { apply list_elem_of_lookup. eauto. }
  { apply lookup_lt_Some in Hi. exact Hi. }
  simpl in Hv. unfold visit in Hv. rewrite Hx in Hv.
  destruct x as [g|]; [|discriminate].
  destruct (is_sparse g); [discriminate|].
  destruct (adam_update grp g p) as [p' r] eqn:Ea. simpl in Hv. subst r.
  apply adam_update_raised in Ea as [Ea|Ea]; [discriminate|].
  unfold alpha_t, math_sqrt, float_div in Ea.
  destruct (Rlt_dec _ _); [discriminate|]. cbn [bind] in Ea.
  destruct (Req_dec_T _ _); discriminate.
Qed.

(** ** A step without gradients *)

Lemma scatter_nil (grads : list (option tensor)) : scatter grads [] = grads.
Proof.
  induction grads as [|[g|] grads IH]; cbn [scatter]; [reflexivity| |];
    rewrite IH; reflexivity.
Qed.

Lemma for_each_id {A : Type} (body : nat -> A -> A * option error)
    (idx : nat) (l : list A) :
  (forall i x, l !! i = Some x -> body (idx + i)%nat x = (x, None)) ->
  for_each body idx l = (l, None).
Proof.
  revert idx. induction l as [|x l IH]; intros idx H; [reflexivity|].
  cbn [for_each]. pose proof (H 0%nat x eq_refl) as Hx.
  rewrite Nat.add_0_r in Hx. rewrite Hx, (IH (S idx)); [reflexivity|].
  intros i y Hi. replace (S idx + i)%nat with (idx + S i)%nat by lia.
  apply (H (S i)). exact Hi.
Qed.

Lemma collect_all_absent (opt : optimizer) :
  (forall grp p, grp ∈ opt -> p ∈ params grp -> p_grad p = None) ->
  forall i x, collect opt !! i = Some x -> x = None.
Proof.
  intros H i x Hi. apply list_elem_of_lookup_2 in Hi.
  unfold collect in Hi. apply list_elem_of_In, in_flat_map in Hi.
  destruct Hi as (grp & Hgrp%list_elem_of_In & Hx%list_elem_of_In).
  change (map ?f ?l) with (f <$> l) in Hx.
  apply list_elem_of_fmap in Hx as (p & -> & Hp).
  rewrite (H grp p Hgrp Hp). reflexivity.
Qed.

(** X8: whatever the groups, a step of an optimizer none of whose
    parameters has a gradient returns and changes nothing. *)
Theorem step_without_gradients (opt : optimizer) :
  (forall grp p, grp ∈ opt -> p ∈ params grp -> p_grad p = None) ->
  step opt = (opt, None).
Proof.
  intros H.
  assert (Hsnap : snapshot opt = collect opt).
  { unfold snapshot.
    assert (present (collect opt) = []) as ->; [|apply scatter_nil].
    pose proof (collect_all_absent opt H) as Hall.
    induction (collect opt) as [|x l IH]; [reflexivity|].
    rewrite (Hall 0%nat x eq_refl). rewrite present_cons_None. apply IH.
    intros i y Hi. apply (Hall (S i)). exact Hi. }
  rewrite step_surgery_returns.
  2:{ apply surgery_dense. intros grp p g Hgrp Hp Hg.
      rewrite (H grp p Hgrp Hp) in Hg. discriminate. }
  unfold update_groups. apply for_each_id. intros k grp Hk. unfold update_group.
  rewrite for_each_id; [destruct grp; reflexivity|].
  intros i p Hi. simpl. apply visit_absent. rewrite Hsnap.
  assert (Hin : grp ∈ opt) by (apply list_elem_of_lookup; eauto).
  destruct (lookup_lt_is_Some_2 (collect opt) i) as [x Hx].
  { pose proof (collect_length_group opt grp Hin).
    apply lookup_lt_Some in Hi. lia. }
  rewrite Hx. f_equal. exact (collect_all_absent opt H i x Hx).
Qed.

(** ** The first step of a parameter *)

(** The move of one element in the first update of a parameter. *)
Lemma first_move (lr beta1 beta2 eps y : R) :
  0 <= lr -> 0 <= beta1 < 1 -> 0 <= beta2 < 1 -> 0 <= eps ->
  0 < eps \/ y <> 0 ->
  let m := beta1 * 0 + (1 - beta1) * y in
  let v := beta2 * 0 + (1 - beta2) * (y * y) in
  let a := spec_alpha_t lr beta1 beta2 1 in
  0 <= v /\ sqrt v + eps <> 0
  /\ Rabs (a * m / (sqrt v + eps)) <= lr
  /\ (eps = 0 -> a * m / (sqrt v + eps) = lr * (y / Rabs y)).
Proof.
  intros Hlr Hb1 Hb2 Heps Hnz m v a.
  set (q := sqrt (1 - beta2)).
  assert (Hq : 0 < q) by (apply sqrt_lt_R0; lra).
  assert (Hv : 0 <= v) by (unfold v; nra).
  assert (Hsv : sqrt v = q * Rabs y).
  { unfold v, q. replace (beta2 * 0 + (1 - beta2) * (y * y))
      with ((1 - beta2) * Rsqr y) by (unfold Rsqr; ring).
    rewrite sqrt_mult by (try apply Rle_0_sqr; lra).
    rewrite sqrt_Rsqr_abs. reflexivity. }
  pose proof (Rabs_pos y) as Hay.
  assert (HD : 0 < sqrt v + eps).
  { rewrite Hsv. destruct Hnz as [He|Hy]; [nra|].
    pose proof (Rabs_pos_lt y Hy). nra. }
  assert (Hu : a * m / (sqrt v + eps) = lr * (q * y) / (sqrt v + eps)).
  { unfold a, m, spec_alpha_t. rewrite !pow_1. fold q.
    generalize dependent (sqrt v). intros sv _ HD. field. split; lra. }
  split; [exact Hv|]. split; [lra|]. rewrite Hu. split.
  - apply Rabs_le.
    assert (Hy : - Rabs y <= y <= Rabs y).
    { split; [pose proof (Rle_abs (- y)); rewrite Rabs_Ropp in *; lra
             |apply Rle_abs]. }
    assert (Hlq : 0 <= lr * q) by nra.
    assert (E : lr * (q * y) / (sqrt v + eps) * (sqrt v + eps) = lr * q * y)
      by (field; lra).
    assert (H1 : 0 <= lr * q * (y + Rabs y)) by (apply Rmult_le_pos; lra).
    assert (H2 : 0 <= lr * q * (Rabs y - y)) by (apply Rmult_le_pos; lra).
    split.
    + apply (Rmult_le_reg_r (sqrt v + eps)); [exact HD|].
      rewrite E, Hsv. nra.
    + apply (Rmult_le_reg_r (sqrt v + eps)); [exact HD|].
      rewrite E, Hsv. nra.
  - intros He. rewrite Hsv, He in *.
    assert (Rabs y <> 0) by nra. field. split; lra.
Qed.

Lemma spec_update_fresh_element (grp : group) (g : tensor) (p : param)
    (k : nat) (x y : R) :
  in_unit (fst (betas grp)) = true -> in_unit (snd (betas grp)) = true ->
  0 <= lr grp -> 0 <= eps grp -> weight_decay grp = 0 ->
  p_state p = None ->
  data (p_data p) !! k = Some (Fin x) -> data g !! k = Some (Fin y) ->
  0 < eps grp \/ y <> 0 ->
  exists x',
    data (p_data (spec_update grp g p)) !! k = Some (Fin x')
    /\ Rabs (x' - x) <= lr grp
    /\ (eps grp = 0 -> x' = x - lr grp * (y / Rabs y)).
Proof.
  intros Hb1%in_unit_true Hb2%in_unit_true Hlr Heps Hwd Hfresh Hx Hy Hnz.
  destruct (first_move (lr grp) (fst (betas grp)) (snd (betas grp)) (eps grp) y
              Hlr Hb1 Hb2 Heps Hnz) as (Hv & HD & Hbound & Hsign).
  unfold spec_update, state_of. rewrite Hfresh, Hwd.
  cbn [st_m st_v st_t p_data with_data data].
  rewrite spec_decay_0.
  assert (Hz : data (zeros_like (p_data p)) !! k = Some (Fin 0)).
  { unfold zeros_like, tmap. cbn [with_data data].
    change (map ?f ?l) with (f <$> l). rewrite list_lookup_fmap, Hx. reflexivity. }
  destruct (betas grp) as [beta1 beta2]. cbn [fst snd] in *.
  set (a := spec_alpha_t (lr grp) beta1 beta2 1) in *.
  assert (Hlook :
    spec_p a (eps grp) (data (p_data p))
      (spec_m beta1 (data (zeros_like (p_data p))) (data g))
      (spec_v beta2 (data (zeros_like (p_data p))) (data g)) !! k
    = Some (nsub (Fin x)
              (ndiv (nmul (Fin a)
                       (nadd (nmul (Fin beta1) (Fin 0)) (nmul (Fin (1 - beta1)) (Fin y))))
                    (nadd (nsqrt (nadd (nmul (Fin beta2) (Fin 0))
                                       (nmul (Fin (1 - beta2)) (nmul (Fin y) (Fin y)))))
                          (Fin (eps grp)))))).
  { unfold spec_p, spec_m, spec_v.
    apply lookup_zip_with_Some. eexists _, _. split; [reflexivity|].
    split; [exact Hx|].
    apply lookup_zip_with_Some. eexists _, _. split; [reflexivity|]. split.
    - apply lookup_zip_with_Some. eexists _, _.
      split; [reflexivity|split; [exact Hz|exact Hy]].
    - apply lookup_zip_with_Some. eexists _, _.
      split; [reflexivity|split; [exact Hz|exact Hy]]. }
  rewrite Hlook. cbn [nadd nmul nlift2].
  rewrite nsqrt_Fin by exact Hv. cbn [nadd nlift2].
  rewrite ndiv_Fin by exact HD. cbn [nsub nlift2].
  eexists. split; [reflexivity|]. split.
  - match goal with |- Rabs (x - ?u - x) <= _ =>
      replace (x - u - x) with (- u) by ring end.
    rewrite Rabs_Ropp. exact Hbound.
  - intros He. rewrite (Hsign He). reflexivity.
Qed.

(** X10: in the first update of a parameter, without weight decay, every
    element moves by at most [lr], whatever the size of its gradient, and
    with [eps = 0] by exactly [lr] against the sign of its gradient. *)
Theorem first_step_bounded (grp grp' : group) (i : nat) (p : param) (g : tensor) :
  valid_betas grp -> 0 <= lr grp -> 0 <= eps grp -> weight_decay grp = 0 ->
  params grp !! i = Some p -> p_state p = None ->
  snapshot [grp] !! i = Some (Some g) ->
  step [grp] = ([grp'], None) ->
  exists p',
    params grp' !! i = Some p'
    /\ forall k x y,
         data (p_data p) !! k = Some (Fin x) -> data g !! k = Some (Fin y) ->
         0 < eps grp \/ y <> 0 ->
         exists x',
           data (p_data p') !! k = Some (Fin x')
           /\ Rabs (x' - x) <= lr grp
           /\ (eps grp = 0 -> x' = x - lr grp * (y / Rabs y)).
Proof.
  intros [Hb1 Hb2] Hlr Heps Hwd Hp Hfresh Hg Hstep.
  exists (spec_update grp g p).
  split; [exact (step_normal_lookup _ _ _ _ _ Hp Hg Hstep)|].
  intros k x y Hx Hy Hnz.
  apply spec_update_fresh_element; assumption.
Qed.

(** ** Weight decay alone *)

Lemma zeros_scaled (c : R) (l : list num) : zeros (scaled c l) = zeros l.
Proof. unfold zeros, scaled. rewrite map_map. reflexivity. Qed.

Lemma scaled_scaled (c c' : R) (l : list num) :
  scaled c' (scaled c l) = scaled (c' * c) l.
Proof.
  unfold scaled. rewrite map_map. apply map_ext.
  intros [x|]; simpl; [|reflexivity]. f_equal. ring.
Qed.

Lemma scaled_1 (l : list num) : scaled 1 l = l.
Proof.
  unfold scaled. rewrite <- (map_id l) at 2. apply map_ext.
  intros [x|]; simpl; [|reflexivity]. f_equal. ring.
Qed.

Lemma tensor_eq (a b : tensor) :
  shape a = shape b -> data a = data b -> is_sparse a = is_sparse b -> a = b.
Proof. destruct a, b. simpl. intros -> -> ->. reflexivity. Qed.

Lemma spec_update_decay (grp : group) (t : tensor) (c : R) (n : nat) (p : param) :
  0 < eps grp -> decayed t c n p ->
  decayed t ((1 - lr grp * weight_decay grp) * c) (S n)
          (spec_update grp (zero_grad t) p).
Proof.
  intros Heps (Hshape & Hsparse & Hdata & Hgrad & Hstate).
  assert (Hs : state_of p
               = {| st_m := zeros_like t; st_v := zeros_like t; st_t := n |}).
  { unfold state_of. rewrite Hstate. destruct n; [|reflexivity].
    assert (zeros_like (p_data p) = zeros_like t) as ->; [|reflexivity].
    apply tensor_eq; [exact Hshape| |exact Hsparse].
    unfold zeros_like, tmap. cbn [with_data data]. rewrite Hdata.
    apply zeros_scaled. }
  unfold spec_update. rewrite Hs. cbn [st_m st_v st_t zero_grad data].
  change (data (zeros_like t)) with (zeros (data t)).
  rewrite spec_m_zeros, spec_v_zeros, with_data_id, Hdata.
  rewrite <- (zeros_scaled c (data t)), spec_p_zeros by exact Heps.
  rewrite spec_decay_scale. fold (scaled (1 - lr grp * weight_decay grp) (scaled c (data t))).
  rewrite scaled_scaled.
  repeat split; try assumption.
Qed.

Lemma step_decay (grp : group) (t : tensor) (c : R) (n : nat) (p : param) :
  valid_betas grp -> 0 < eps grp -> decayed t c n p ->
  params grp = [p] ->
  step [grp] = ([with_params grp [spec_update grp (zero_grad t) p]], None).
Proof.
  intros Hb Heps (Hshape & Hsparse & Hdata & Hgrad & Hstate) Hps.
  rewrite step_single_total.
  - rewrite Hps. cbn [imap]. unfold visited.
    assert (Hs : snapshot [grp] = [Some (zero_grad t)])
      by (unfold snapshot, collect; cbn [flat_map]; rewrite Hps; cbn [map];
          rewrite Hgrad; reflexivity).
    rewrite Hs. reflexivity.
  - exact Hb.
  - rewrite Hps. constructor; [|constructor]. unfold wf_param.
    rewrite Hgrad, Hstate. split; [symmetry; exact Hshape|].
    destruct n; [exact I|]. split; symmetry; exact Hshape.
  - rewrite Hps. intros q g [->|[]%elem_of_nil]%elem_of_cons Hq.
    rewrite Hgrad in Hq. injection Hq as <-. reflexivity.
Qed.

Lemma steps_decay (n : nat) :
  forall (grp : group) (t : tensor) (c : R) (k : nat) (p : param),
  valid_betas grp -> 0 < eps grp -> decayed t c k p ->
  params grp = [p] ->
  exists p',
    steps n [grp] = ([with_params grp [p']], None)
    /\ decayed t ((1 - lr grp * weight_decay grp) ^ n * c) (k + n) p'.
Proof.
  induction n as [|n IH]; intros grp t c k p Hb Heps Hdec Hps.
  - exists p. split.
    + cbn [steps]. rewrite <- Hps. destruct grp. reflexivity.
    + rewrite Nat.add_0_r. simpl. rewrite Rmult_1_l. exact Hdec.
  - cbn [steps]. rewrite (step_decay grp t c k p) by assumption.
    pose proof (spec_update_decay grp t c k p Heps Hdec) as Hdec'.
    destruct (IH (with_params grp [spec_update grp (zero_grad t) p]) t _ (S k) _
                Hb Heps Hdec' eq_refl) as (p' & Hsteps & Hp').
    exists p'. split.
    + rewrite Hsteps. reflexivity.
    + cbn [lr weight_decay with_params] in Hp'.
      replace (k + S n)%nat with (S k + n)%nat by lia.
      replace ((1 - lr grp * weight_decay grp) ^ S n * c)
        with ((1 - lr grp * weight_decay grp) ^ n
              * ((1 - lr grp * weight_decay grp) * c)) by (simpl; ring).
      exact Hp'.
Qed.

(** X11: with an all-zero gradient, [eps > 0] and weight decay [w], [n]
    steps all return and multiply the value of the parameter by
    [(1 − lr·w)^n]; the counter is [n]. *)
Theorem zero_gradient_decays (t : tensor) (lr : R) (betas : R * R)
    (eps w : R) (cb : bool) (opt : optimizer) (n : nat) :
  AdamW_init [zero_grad_param t] lr betas eps w cb = Ok opt ->
  0 < eps ->
  exists p,
    steps n opt
    = ([ {| params := [p]; lr := lr; betas := betas; eps := eps;
            weight_decay := w; correct_bias := cb |} ], None)
    /\ shape (p_data p) = shape t
    /\ data (p_data p) = scaled ((1 - lr * w) ^ n) (data t)
    /\ t_of p = n.
Proof.
  intros Hinit Heps.
  assert (Hb : in_unit (fst betas) = true /\ in_unit (snd betas) = true /\ 0 <= lr).
  { revert Hinit. unfold AdamW_init.
    destruct (Rlt_dec lr 0); [discriminate|].
    destruct (in_unit (fst betas)); cbn [negb]; [|discriminate].
    destruct (in_unit (snd betas)); cbn [negb]; [|discriminate].
    intros _. repeat split. lra. }
  destruct Hb as (Hb0 & Hb1 & Hlr).
  rewrite (AdamW_init_Ok _ _ _ _ _ _ Hlr (proj1 (in_unit_true _) Hb0)
             (proj1 (in_unit_true _) Hb1) (Rlt_le _ _ Heps)) in Hinit.
  injection Hinit as <-.
  set (grp := {| params := map fresh [zero_grad_param t]; lr := lr;
                 betas := betas; eps := eps; weight_decay := w;
                 correct_bias := cb |}).
  destruct (steps_decay n grp t 1 0 (zero_grad_param t))
    as (p & Hsteps & Hshape & _ & Hdata & _ & Hstate).
  - split; [exact Hb0|exact Hb1].
  - exact Heps.
  - repeat split. cbn [zero_grad_param p_data]. symmetry. apply scaled_1.
  - reflexivity.
  - exists p. split; [exact Hsteps|]. split; [exact Hshape|]. split.
    + rewrite Hdata. unfold grp. cbn. rewrite Rmult_1_r. reflexivity.
    + unfold t_of, state_of. rewrite Hstate. destruct n; reflexivity.
Qed.

(** ** Properties of the running loss *)

Lemma add_losses (l : list R) (st : running) :
  foldl add_loss st l
  = {| train_loss := train_loss st + total l;
       num_batches := (num_batches st + length l)%nat |}.
Proof.
  revert st. induction l as [|x l IH]; intros st.
  - destruct st. simpl. f_equal; [unfold total; simpl; lra|lia].
  - cbn [foldl]. rewrite IH. unfold add_loss, total. simpl. f_equal; [lra|lia].
Qed.

Lemma add_loss_sst_Ok (st : running) (loss : R) :
  add_loss_sst st loss
  = Ok {| train_loss := (train_loss st + loss) / INR (S (num_batches st));
          num_batches := S (num_batches st) |}.
Proof.
  unfold add_loss_sst, add_loss, float_div. cbn [train_loss num_batches].
  destruct (Req_dec_T (INR (S (num_batches st))) 0) as [H|H]; [|reflexivity].
  pose proof (pos_INR (num_batches st)). rewrite S_INR in H. lra.
Qed.

Lemma div_count_le (x : R) (n : nat) : 0 <= x -> 0 <= x / INR (S n) <= x.
Proof.
  intros Hx. pose proof (pos_INR n) as Hn. rewrite S_INR.
  assert (Hd : 0 < INR n + 1) by lra.
  split.
  - apply Rmult_le_pos; [exact Hx|]. apply Rlt_le, Rinv_0_lt_compat, Hd.
  - apply (Rmult_le_reg_r (INR n + 1)); [exact Hd|].
    unfold Rdiv. rewrite Rmult_assoc, Rinv_l by lra. nra.
Qed.

Lemma sst_loop_bound (sst : list R) :
  forall (st : running) (s : R),
  Forall (Rle 0) sst -> 0 <= train_loss st <= s ->
  exists tl,
    sst_loop sst st
    = Ok {| train_loss := tl; num_batches := (num_batches st + length sst)%nat |}
    /\ 0 <= tl <= s + total sst
    /\ (sst <> [] -> tl <= (s + total sst) / INR (num_batches st + length sst)).
Proof.
  induction sst as [|l sst IH]; intros st s Hpos Hst.
  - exists (train_loss st). cbn [sst_loop length]. rewrite Nat.add_0_r.
    destruct st. unfold total. simpl. split; [reflexivity|].
    split; [simpl in Hst; lra|]. intros H. contradiction.
  - apply Forall_cons in Hpos as [Hl Hpos].
    cbn [sst_loop]. rewrite add_loss_sst_Ok. cbn [bind].
    set (tl1 := (train_loss st + l) / INR (S (num_batches st))).
    destruct (div_count_le (train_loss st + l) (num_batches st)) as [H0 H1];
      [lra|]. fold tl1 in H0, H1.
    destruct (IH {| train_loss := tl1; num_batches := S (num_batches st) |}
                 (s + l) Hpos) as (tl & Hloop & Hrange & Hmean).
    { cbn [train_loss]. lra. }
    cbn [num_batches] in *.
    exists tl. replace (num_batches st + length (l :: sst))%nat
      with (S (num_batches st) + length sst)%nat by (simpl; lia).
    split; [exact Hloop|].
    assert (Ht : s + l + total sst = s + total (l :: sst))
      by (unfold total; simpl; lra).
    rewrite <- Ht. split; [exact Hrange|]. intros _.
    destruct sst as [|l' sst']; [|apply Hmean; discriminate].
    cbn [sst_loop] in Hloop. injection Hloop as <-.
    cbn [length]. rewrite Nat.add_0_r. unfold total. cbn [foldr].
    unfold tl1. pose proof (pos_INR (num_batches st)) as Hn.
    rewrite S_INR in *.
    apply (Rmult_le_reg_r (INR (num_batches st) + 1)); [lra|].
    unfold Rdiv. rewrite !Rmult_assoc, !Rinv_l by lra. lra.
Qed.

(** X12: the running loss of the epoch never divides by zero and counts
    every batch; without a batch of the SST loader it is the sum of the
    losses, not their mean, and with one it is the mean. *)
Theorem epoch_loss_runs (sts para sst : list R) :
  exists tl,
    epoch_loss sts para sst
    = Ok {| train_loss := tl;
            num_batches := (length sts + length para + length sst)%nat |}
    /\ (sst = [] -> tl = total sts + total para)
    /\ (forall l, sst = [l] ->
          tl = (total sts + total para + l)
               / INR (length sts + length para + 1)).
Proof.
  unfold epoch_loss. rewrite !add_losses. cbn [train_loss num_batches].
  destruct sst as [|l sst].
  - eexists. cbn [sst_loop length]. split; [|split].
    + f_equal. f_equal. lia.
    + intros _. lra.
    + discriminate.
  - cbn [sst_loop]. rewrite add_loss_sst_Ok. cbn [bind train_loss num_batches].
    destruct sst as [|l' sst'].
    + eexists. cbn [sst_loop length]. split; [|split].
      * f_equal. f_equal. lia.
      * discriminate.
      * intros l0 [= <-]. f_equal; [lra|]. f_equal. lia.
    + set (st1 := {| train_loss := _; num_batches := _ |}).
      assert (Hok : forall losses st, exists tl,
                sst_loop losses st
                = Ok {| train_loss := tl;
                        num_batches := (num_batches st + length losses)%nat |}).
      { clear. induction losses as [|x losses IH]; intros st.
        - exists (train_loss st). destruct st. simpl. f_equal. f_equal. lia.
        - cbn [sst_loop]. rewrite add_loss_sst_Ok. cbn [bind].
          destruct (IH {| train_loss := (train_loss st + x) / INR (S (num_batches st));
                          num_batches := S (num_batches st) |}) as [tl Htl].
          exists tl. rewrite Htl. cbn [num_batches length]. f_equal. f_equal. lia. }
      destruct (Hok (l' :: sst') st1) as [tl Htl].
      exists tl. split; [|split; discriminate].
      rewrite Htl. unfold st1. cbn [num_batches length]. f_equal. f_equal. lia.
Qed.

(** X13: for losses that are not negative and at least one batch of the
    SST loader, the running loss that the epoch reports is at most the
    mean loss of the batches. *)
Theorem epoch_loss_below_mean (sts para sst : list R) :
  Forall (Rle 0) sts -> Forall (Rle 0) para -> Forall (Rle 0) sst ->
  sst <> [] ->
  exists tl,
    epoch_loss sts para sst
    = Ok {| train_loss := tl;
            num_batches := (length sts + length para + length sst)%nat |}
    /\ 0 <= tl
    /\ tl <= (total sts + total para + total sst)
             / INR (length sts + length para + length sst).
Proof.
  intros Hsts Hpara Hsst Hne.
  assert (Hsum : forall l, Forall (Rle 0) l -> 0 <= total l).
  { induction 1; unfold total in *; simpl; lra. }
  pose proof (Hsum _ Hsts). pose proof (Hsum _ Hpara).
  unfold epoch_loss. rewrite !add_losses. cbn [train_loss num_batches].
  destruct (sst_loop_bound sst
              {| train_loss := 0 + total sts + total para;
                 num_batches := (0 + length sts + length para)%nat |}
              (total sts + total para) Hsst) as (tl & Hloop & Hrange & Hmean).
  { cbn [train_loss]. lra. }
  cbn [num_batches] in *. exists tl.
  split; [exact Hloop|]. split; [lra|]. exact (Hmean Hne).
Qed.

(** ** Steps that raise *)




(** X14: a step of one group of well-formed parameters with dense
    gradients and betas in [[0, 1)] returns, and leaves of every
    parameter what its visit makes of it. *)
Theorem step_returns (grp : group) :
  valid_betas grp ->
  Forall wf_param (params grp) ->
  (forall p g, p ∈ params grp -> p_grad p = Some g -> is_sparse g = false) ->
  snd (step [grp]) = None
  /\ forall i p, params grp !! i = Some p ->
       exists grp', fst (step [grp]) = [grp']
                    /\ params grp' !! i = Some (visited grp (snapshot [grp]) i p).
Proof.
  intros Hb Hwf Hdense.
  rewrite (step_single_total grp Hb Hwf Hdense). split; [reflexivity|].
  intros i p Hp. eexists. split; [reflexivity|].
  cbn [params with_params]. rewrite list_lookup_imap, Hp. reflexivity.
Qed.

(** ** Training never raises *)

Lemma visit_kept_wf (grp : group) (grads : list (option tensor)) (i : nat) (p : param) :
  kept_wf p (fst (visit grp grads i p)).
Proof.
  intros Hwf. split; [apply visit_wf, Hwf|]. split.
  - apply visit_kept.
  - destruct (visit_counter grp grads i p) as [[->| ->] _]; lia.
Qed.

(** X7: in an optimizer with one group, whether the step returns or
    raises, parameters whose gradient and moments have the shape of the
    value are still so after the call, and every value has kept its shape:
    the moments the step stores have the shape of the value. *)
Theorem step_keeps_well_formed (grp : group) :
  Forall wf_param (params grp) ->
  exists ps,
    fst (step [grp]) = [with_params grp ps]
    /\ Forall wf_param ps
    /\ Forall2 (fun p p' => shape (p_data p') = shape (p_data p)) (params grp) ps.
Proof.
  intros Hwf.
  destruct (step_single_shape grp) as [ps Hps]. exists ps.
  split; [exact Hps|].
  pose proof (step_pointwise kept_wf [grp]) as Hkept. rewrite Hps in Hkept.
  assert (H : Forall2 kept_wf (params grp) ps).
  { assert (H : Forall2 (group_rel kept_wf) [grp] [with_params grp ps]).
    { apply Hkept; [intros p Hp; split; [exact Hp|split; [reflexivity|lia]]|].
      apply visit_kept_wf. }
    apply Forall2_cons_1 in H as [(_ & _ & _ & _ & _ & H) _]. exact H. }
  clear -H Hwf. induction H as [|p p' l l' Hp _ IH].
  - split; constructor.
  - apply Forall_cons in Hwf as [Hwp Hwl].
    destruct (Hp Hwp) as (Hwp' & Hshape & _), (IH Hwl) as [IH1 IH2].
    split; constructor; assumption.
Qed.

Lemma attach_wf (ps : list param) (gs : list (option tensor)) (grp : group) (n : nat) :
  fits ps gs -> Forall2 (trained n) ps (params grp) ->
  forall k q, params grp !! k = Some q ->
    wf_param (set_grad (default None (gs !! k)) q)
    /\ forall g, default None (gs !! k) = Some g -> is_sparse g = false.
Proof.
  intros Hfits Hinv k q Hq.
  destruct (Forall2_lookup_r _ _ _ _ _ Hinv Hq) as (p & Hp & Hshape & Hst & _).
  unfold wf_param. cbn [set_grad p_grad p_data p_state].
  destruct (gs !! k) as [[g|]|] eqn:Hg; cbn [default].
  - destruct (Hfits k p g Hp Hg) as [Hs Hd].
    split; [split; [congruence|exact Hst]|]. intros g' [= <-]. exact Hd.
  - split; [split; [exact I|exact Hst]|]. discriminate.
  - split; [split; [exact I|exact Hst]|]. discriminate.
Qed.

Lemma train_total (ps : list param) (rounds : list (list (option tensor))) :
  forall (grp : group) (n : nat),
  valid_betas grp -> Forall (fits ps) rounds ->
  Forall2 (trained n) ps (params grp) ->
  exists qs,
    train rounds [grp] = ([with_params grp qs], None)
    /\ Forall2 (trained (n + length rounds)) ps qs.
Proof.
  induction rounds as [|gs rounds IH]; intros grp n Hb Hfits Hinv.
  - exists (params grp). split; [destruct grp; reflexivity|].
    cbn [length]. rewrite Nat.add_0_r. exact Hinv.
  - apply Forall_cons in Hfits as [Hgs Hfits].
    cbn [train]. rewrite attach_single.
    set (grp1 := with_params grp _).
    assert (Hlook : forall k q1, params grp1 !! k = Some q1 ->
              exists q, params grp !! k = Some q
                        /\ q1 = set_grad (default None (gs !! k)) q).
    { intros k q1 Hk. unfold grp1 in Hk. cbn [params with_params] in Hk.
      rewrite list_lookup_imap in Hk.
      destruct (params grp !! k) as [q|]; [|discriminate].
      injection Hk as <-. eauto. }
    assert (Hwf1 : Forall wf_param (params grp1)).
    { apply Forall_lookup. intros k q1 Hk.
      destruct (Hlook k q1 Hk) as (q & Hq & ->).
      apply (attach_wf ps gs grp n Hgs Hinv k q Hq). }
    assert (Hdense1 : forall p g, p ∈ params grp1 -> p_grad p = Some g ->
                        is_sparse g = false).
    { intros q1 g [k Hk]%list_elem_of_lookup Hg.
      destruct (Hlook k q1 Hk) as (q & Hq & ->).
      apply (attach_wf ps gs grp n Hgs Hinv k q Hq). exact Hg. }
    pose proof (step_single_total grp1 Hb Hwf1 Hdense1) as Hstep.
    pose proof (step_pointwise kept_wf [grp1]) as Hkept.
    rewrite Hstep in Hkept. cbn [fst] in Hkept.
    rewrite Hstep.
    set (qs2 := imap (visited grp1 (snapshot [grp1])) (params grp1)) in *.
    assert (Hinv2 : Forall2 (trained (S n)) ps qs2).
    { assert (Hrel : Forall2 kept_wf (params grp1) qs2).
      { assert (H : Forall2 (group_rel kept_wf) [grp1] [with_params grp1 qs2]).
        { apply Hkept; [intros p Hp; split; [exact Hp|split; [reflexivity|lia]]|].
          apply visit_kept_wf. }
        apply Forall2_cons_1 in H as [(_ & _ & _ & _ & _ & H) _]. exact H. }
      apply Forall2_same_length_lookup. split.
      - rewrite (Forall2_length _ _ _ Hinv), <- (Forall2_length _ _ _ Hrel).
        unfold grp1. cbn [params with_params]. rewrite length_imap. reflexivity.
      - intros k p q2 Hp Hq2.
        destruct (Forall2_lookup_r _ _ _ _ _ Hrel Hq2) as (q1 & Hq1 & Hk).
        destruct (Hlook k q1 Hq1) as (q & Hq & ->).
        destruct (Forall2_lookup_lr _ _ _ _ _ _ Hinv Hp Hq) as (Hshape & _ & Ht).
        rewrite Forall_lookup in Hwf1.
        destruct (Hk (Hwf1 _ _ Hq1)) as ((_ & Hst2) & Hshape2 & Ht2).
        split; [|split].
        + rewrite Hshape2. exact Hshape.
        + exact Hst2.
        + change (t_of (set_grad (default None (gs !! k)) q)) with (t_of q) in Ht2.
          lia. }
    destruct (IH (with_params grp1 qs2) (S n) Hb Hfits Hinv2) as (qs & Htrain & Hqs).
    exists qs. split; [exact Htrain|].
    cbn [length]. replace (n + S (length rounds))%nat with (S n + length rounds)%nat by lia.
    exact Hqs.
Qed.

(** X16: the optimizer that the constructor gives never raises in
    training: whatever the batches, as long as the gradients they leave
    are dense and have the shapes of the values, every [step()] returns;
    the values keep their shapes and no parameter is updated more often
    than there were batches. *)
Theorem training_never_raises (ps : list param) (lr : R) (betas : R * R)
    (eps w : R) (cb : bool) (opt : optimizer)
    (rounds : list (list (option tensor))) :
  AdamW_init ps lr betas eps w cb = Ok opt ->
  Forall (fits ps) rounds ->
  exists qs,
    train rounds opt
    = ([ {| params := qs; lr := lr; betas := betas; eps := eps;
            weight_decay := w; correct_bias := cb |} ], None)
    /\ Forall2 (trained (length rounds)) ps qs.
Proof.
  intros Hinit Hfits.
  assert (Hb : in_unit (fst betas) = true /\ in_unit (snd betas) = true
               /\ 0 <= lr /\ 0 <= eps).
  { revert Hinit. unfold AdamW_init.
    destruct (Rlt_dec lr 0); [discriminate|].
    destruct (in_unit (fst betas)); cbn [negb]; [|discriminate].
    destruct (in_unit (snd betas)); cbn [negb]; [|discriminate].
    destruct (Rle_dec 0 eps); [|discriminate].
    intros _. repeat split; lra. }
  destruct Hb as (Hb0 & Hb1 & Hlr & Heps).
  rewrite (AdamW_init_Ok _ _ _ _ _ _ Hlr (proj1 (in_unit_true _) Hb0)
             (proj1 (in_unit_true _) Hb1) Heps) in Hinit.
  injection Hinit as <-.
  set (grp := {| params := map fresh ps; lr := lr; betas := betas; eps := eps;
                 weight_decay := w; correct_bias := cb |}).
  destruct (train_total ps rounds grp 0) as (qs & Htrain & Hqs).
  - split; [exact Hb0|exact Hb1].
  - exact Hfits.
  - unfold grp. cbn [params]. clear. induction ps as [|p ps IH]; constructor.
    + repeat split. unfold t_of, state_of. cbn. lia.
    + exact IH.
  - exists qs. split; [exact Htrain|exact Hqs].
Qed.

(** ** Parameters that never have a gradient *)

(** X17: in an optimizer with one parameter group, a parameter on which no
    batch leaves a gradient comes out of training with the value and the
    state it went in with, however many batches there were and whether
    a step raised or not. *)
Theorem frozen_parameter_unchanged (grp : group) (k : nat) (p : param)
    (rounds : list (list (option tensor))) :
  params grp !! k = Some p ->
  Forall (no_grad k) rounds ->
  exists qs q,
    fst (train rounds [grp]) = [with_params grp qs]
    /\ qs !! k = Some q
    /\ p_data q = p_data p /\ p_state q = p_state p.
Proof.
  revert grp p. induction rounds as [|gs rounds IH]; intros grp p Hp Hno.
  - exists (params grp), p. split; [destruct grp; reflexivity|].
    split; [exact Hp|]. split; reflexivity.
  - apply Forall_cons in Hno as [Hgs Hno].
    cbn [train]. rewrite attach_single.
    set (grp1 := with_params grp _).
    assert (Hp1 : params grp1 !! k = Some (set_grad None p)).
    { unfold grp1. cbn [params with_params].
      rewrite list_lookup_imap, Hp. cbn. unfold no_grad in Hgs. rewrite Hgs.
      reflexivity. }
    destruct (step_absent_untouched grp1 k (set_grad None p) Hp1 eq_refl)
      as (ps & Hfst & Hps).
    destruct (step [grp1]) as [opt1 [e|]]; cbn [fst] in Hfst; subst opt1.
    + exists ps, (set_grad None p). split; [reflexivity|].
      split; [exact Hps|]. split; reflexivity.
    + destruct (IH (with_params grp1 ps) (set_grad None p) Hps Hno)
        as (qs & q & Hqs & Hq & Hd & Hs).
      exists qs, q. split; [exact Hqs|]. split; [exact Hq|].
      split; [exact Hd|exact Hs].
Qed.

(** ** Sparse gradients in the surgery *)

(** X19: whatever the groups, when two present gradients of the snapshot
    have one shape and one of them is sparse, the surgery reaches line 37
    with a sparse operand: the step call raises there, before the loop
    over the parameters, and leaves every value and every state as it
    was. *)
Theorem sparse_peer_aborts (opt : optimizer) (i j : nat) (g_i g_j : tensor) :
  (i < j)%nat ->
  present (collect opt) !! i = Some g_i ->
  present (collect opt) !! j = Some g_j ->
  shape g_i = shape g_j ->
  is_sparse g_i = true \/ is_sparse g_j = true ->
  step opt = (opt, Some SparseGradient).
Proof.
  intros Hij Hi Hj Hshape Hsparse.
  apply step_surgery_raises, sparse_conflict_true.
  exists i, j. split; [exact Hij|].
  unfold sparse_operand. rewrite !list_lookup_fmap, Hi, Hj.
  cbn [fmap option_fmap option_map]. rewrite decide_True by exact Hshape.
  destruct Hsparse as [-> | ->]; [reflexivity|apply orb_true_r].
Qed.

(** ** Instances *)

(** X1 at three gradients: the second has another shape than the two
    others, and the first and the third have a negative dot product. *)
Lemma surgery_identity_without_conflict_witness :
  gradient_surgery [Some (vec [1]); Some (vec [1; 2]); Some (vec [-1])]
  = [Some (vec [1]); Some (vec [1; 2]); Some (vec [-1])].
Proof.
  apply (surgery_identity_without_conflict
           [Some (vec [1]); Some (vec [1; 2]); Some (vec [-1])]).
  intros [|[|[|i]]] [|[|[|j]]] g_i g_j Hlt Hi Hj;
    try lia; try discriminate; injection Hi as <-; injection Hj as <-;
    try (left; discriminate).
  right. cbn [vec data]. rewrite dot_vec.
  apply gt0_Fin_false. rewrite rdot_cons, rdot_nil. lra.
Defined.

(** X2 at the pair of [g0] and [g1], whose dot product is 1. *)
Lemma projection_orthogonal_witness :
  exists g_i' s s',
    surgery_pair 0 1 [Some g0; Some g1] !! 0%nat = Some (Some g_i')
    /\ dot (data g_i') (data g1) = Fin 0
    /\ sum_squares (data g0) = Fin s
    /\ sum_squares (data g_i') = Fin s'
    /\ s' <= s.
Proof.
  apply (projection_orthogonal [Some g0; Some g1] 0 1 g0 g1).
  - reflexivity.
  - reflexivity.
  - reflexivity.
  - repeat constructor.
  - reflexivity.
  - repeat constructor.
  - reflexivity.
  - unfold g0, g1. cbn [vec data]. rewrite dot_vec.
    apply gt0_Fin_true. rewrite !rdot_cons, rdot_nil. lra.
Defined.

(** X3 at the three gradients of the example. *)
Lemma surgery_never_lengthens_witness :
  real_grads (gradient_surgery [Some g0; Some g1; Some g2])
  /\ forall k g, [Some g0; Some g1; Some g2] !! k = Some (Some g) ->
       exists g' s s',
         gradient_surgery [Some g0; Some g1; Some g2] !! k = Some (Some g')
         /\ sum_squares (data g) = Fin s
         /\ sum_squares (data g') = Fin s'
         /\ s' <= s.
Proof.
  apply (surgery_never_lengthens [Some g0; Some g1; Some g2]).
  intros [|[|[|k]]] g Hk; try discriminate; injection Hk as <-;
    (split; [repeat constructor|reflexivity]).
Defined.

(** X7 at a dense gradient of two elements followed by a sparse one of
    one element, where the step raises. *)
Lemma step_keeps_well_formed_witness :
  exists ps,
    fst (step [ex_group [p_wide; p_sparse] 1])
    = [with_params (ex_group [p_wide; p_sparse] 1) ps]
    /\ Forall wf_param ps
    /\ Forall2 (fun p p' => shape (p_data p') = shape (p_data p))
         (params (ex_group [p_wide; p_sparse] 1)) ps.
Proof.
  apply (step_keeps_well_formed (ex_group [p_wide; p_sparse] 1)).
  repeat constructor.
Defined.

(** X8 at two groups whose parameters have no gradient. *)
Lemma step_without_gradients_witness :
  step [ex_group [p_none] 1; ex_group [p_none; p_none] 1]
  = ([ex_group [p_none] 1; ex_group [p_none; p_none] 1], None).
Proof.
  apply (step_without_gradients [ex_group [p_none] 1; ex_group [p_none; p_none] 1]).
  intros grp p Hgrp Hp.
  assert (Hnone : p = p_none); [|rewrite Hnone; reflexivity].
  apply elem_of_cons in Hgrp as [->|Hgrp].
  - apply elem_of_cons in Hp as [->|Hp]; [reflexivity|].
    apply elem_of_nil in Hp. contradiction.
  - apply elem_of_cons in Hgrp as [->|Hgrp].
    + apply elem_of_cons in Hp as [->|Hp]; [reflexivity|].
      apply elem_of_cons in Hp as [->|Hp]; [reflexivity|].
      apply elem_of_nil in Hp. contradiction.
    + apply elem_of_nil in Hgrp. contradiction.
Defined.

(** X10 at a group of one parameter with value [[0]] and gradient [[1]]. *)
Lemma first_step_bounded_witness :
  exists p',
    params one_group_after !! 0%nat = Some p'
    /\ forall k x y,
         data (p_data p_first) !! k = Some (Fin x) ->
         data (vec [1]) !! k = Some (Fin y) ->
         0 < eps one_group \/ y <> 0 ->
         exists x',
           data (p_data p') !! k = Some (Fin x')
           /\ Rabs (x' - x) <= lr one_group
           /\ (eps one_group = 0 -> x' = x - lr one_group * (y / Rabs y)).
Proof.
  apply (first_step_bounded one_group one_group_after 0 p_first (vec [1])).
  - apply ex_group_valid.
  - simpl. lra.
  - simpl. lra.
  - reflexivity.
  - reflexivity.
  - reflexivity.
  - reflexivity.
  - exact one_group_step.
Defined.

(** X11 at the value [[1]], [lr = 1], weight decay [1/2] and two steps. *)
Lemma zero_gradient_decays_witness :
  exists p,
    steps 2 [ {| params := map fresh [zero_grad_param (vec [1])]; lr := 1;
                 betas := (0, 0); eps := 1; weight_decay := 1/2;
                 correct_bias := true |} ]
    = ([ {| params := [p]; lr := 1; betas := (0, 0); eps := 1;
            weight_decay := 1/2; correct_bias := true |} ], None)
    /\ shape (p_data p) = shape (vec [1])
    /\ data (p_data p) = scaled ((1 - 1 * (1/2)) ^ 2) (data (vec [1]))
    /\ t_of p = 2%nat.
Proof.
  apply (zero_gradient_decays (vec [1]) 1 (0, 0) 1 (1/2) true).
  - apply AdamW_init_Ok; simpl; lra.
  - lra.
Defined.

(** X13 at one STS batch of loss 1 and two SST batches of losses 1 and 3. *)
Lemma epoch_loss_below_mean_witness :
  exists tl,
    epoch_loss [1] [] [1; 3]
    = Ok {| train_loss := tl;
            num_batches := (length [1] + length (@nil R) + length [1; 3])%nat |}
    /\ 0 <= tl
    /\ tl <= (total [1] + total [] + total [1; 3])
             / INR (length [1] + length (@nil R) + length [1; 3]).
Proof.
  apply (epoch_loss_below_mean [1] [] [1; 3]).
  - repeat constructor. lra.
  - constructor.
  - repeat constructor; lra.
  - discriminate.
Defined.

(** X14 at a group of one parameter with gradient [[1]]. *)
Lemma step_returns_witness :
  snd (step [one_group]) = None
  /\ forall i p, params one_group !! i = Some p ->
       exists grp', fst (step [one_group]) = [grp']
                    /\ params grp' !! i
                       = Some (visited one_group (snapshot [one_group]) i p).
Proof.
  apply (step_returns one_group).
  - apply ex_group_valid.
  - constructor; [|constructor]. split; [reflexivity|exact I].
  - intros p g Hp Hg.
    apply elem_of_cons in Hp as [->|Hp]; [|apply elem_of_nil in Hp; contradiction].
    injection Hg as <-. reflexivity.
Defined.



(** X16 at one parameter and two batches, the second without gradient. *)
Lemma training_never_raises_witness :
  exists qs,
    train [[Some (vec [1])]; [None]]
      [ {| params := map fresh [p_none]; lr := 1/1000; betas := (9/10, 999/1000);
           eps := 1/1000000; weight_decay := 0; correct_bias := true |} ]
    = ([ {| params := qs; lr := 1/1000; betas := (9/10, 999/1000);
            eps := 1/1000000; weight_decay := 0; correct_bias := true |} ], None)
    /\ Forall2 (trained (length [[Some (vec [1])]; [@None tensor]])) [p_none] qs.
Proof.
  apply (training_never_raises [p_none] (1/1000) (9/10, 999/1000) (1/1000000) 0 true).
  - apply AdamW_init_Ok; simpl; lra.
  - constructor; [|constructor; [|constructor]].
    + intros [|k] p g Hp Hg; [|discriminate].
      injection Hp as <-. injection Hg as <-. split; reflexivity.
    + intros [|k] p g Hp Hg; discriminate.
Defined.

(** X17 at two parameters and two batches that leave a gradient on the
    first one only. *)
Lemma frozen_parameter_unchanged_witness :
  exists qs q,
    fst (train [[Some (vec [1]); None]; [Some (vec [2])]]
           [ex_group [p_first; p_none] 1])
    = [with_params (ex_group [p_first; p_none] 1) qs]
    /\ qs !! 1%nat = Some q
    /\ p_data q = p_data p_none /\ p_state q = p_state p_none.
Proof.
  apply (frozen_parameter_unchanged (ex_group [p_first; p_none] 1) 1 p_none
           [[Some (vec [1]); None]; [Some (vec [2])]]).
  - reflexivity.
  - repeat constructor.
Defined.

(** X19 at two groups: a sparse gradient in the first, a dense one of the
    same shape in the second. *)
Lemma sparse_peer_aborts_witness :
  step [ex_group [p_sparse] 1; ex_group [p_first] 1]
  = ([ex_group [p_sparse] 1; ex_group [p_first] 1], Some SparseGradient).
Proof.
  apply (sparse_peer_aborts [ex_group [p_sparse] 1; ex_group [p_first] 1]
           0 1 sparse_one (vec [1])).
  - lia.
  - reflexivity.
  - reflexivity.
  - reflexivity.
  - left. reflexivity.
Defined.
